(** * TyreWise fitment engine: size parsing, geometry and scoring

    A shallow embedding of the engine of [src/app/page.tsx]
    ([parseTyreSize], [formatTyreSize], [overallDiameterMm], [pctDiff],
    [clamp], [scoreAlternative] and the search pipeline of [runSearch]),
    together with the JavaScript primitives these functions call. *)

From Stdlib Require Import ZArith QArith Qround Qabs Qpower Qreduction.
From Stdlib Require Import Bool List String Ascii DecimalString Lia Lqa.
From Stdlib Require Import Sorted Permutation.
From Stdlib Require Import PrimInt63 PrimFloat.
Import ListNotations.

Open Scope string_scope.

(** * JavaScript primitives *)

Module JS.

(** ** Numbers

    A JavaScript number is an IEEE 754 binary64 value.  A finite value is
    held as the rational it denotes, in lowest terms, so that two equal
    finite numbers are equal terms.  Every arithmetic operation computes
    the exact rational result and rounds it to the nearest binary64 value,
    ties to even, which is how IEEE 754 defines the operations.

    The sign of zero is not modelled.  In the engine the only quotient
    whose sign depends on it goes through [Math.abs], and printing,
    comparison and sorting treat both zeros alike. *)

Inductive number : Type :=
  | NaN
  | Inf (neg : bool)
  | Fin (q : Q).

Definition ofZ (z : Z) : number := Fin (inject_Z z).

(** [ilog2 x] is the integer [k] with [2^k <= x < 2^(k+1)], for [0 < x]. *)
Definition ilog2 (x : Q) : Z :=
  let k := (Z.log2 (Qnum x) - Z.log2 (Zpos (Qden x)))%Z in
  if Qle_bool (2 ^ k) x then k else (k - 1)%Z.

(** Nearest integer, ties to even. *)
Definition rne (q : Q) : Z :=
  let f := Qfloor q in
  match Qcompare (q - inject_Z f) (1 # 2) with
  | Lt => f
  | Gt => (f + 1)%Z
  | Eq => if Z.even f then f else (f + 1)%Z
  end.

(** Exponent of the unit in the last place of the binary64 values around
    [x]: 53 significant bits, and the subnormal spacing [2^-1074] below
    [2^-1022]. *)
Definition ulpExp (x : Q) : Z := Z.max (ilog2 (Qabs x) - 52) (-1074).

(** The multiple of the unit in the last place nearest to [x]. *)
Definition nearest64 (x : Q) : Q :=
  inject_Z (rne (x / 2 ^ ulpExp x)) * 2 ^ ulpExp x.

Definition isNeg (q : Q) : bool := negb (Qle_bool 0 q).

(** Rounding of an exact result to binary64; results of magnitude
    [2^1024] or more overflow to an infinity. *)
Definition round64 (x : Q) : number :=
  if Qeq_bool x 0 then Fin 0 else
  let r := Qred (nearest64 x) in
  if Qle_bool (2 ^ 1024) (Qabs r) then Inf (isNeg x) else Fin r.

Definition neg (a : number) : number :=
  match a with
  | NaN => NaN
  | Inf s => Inf (negb s)
  | Fin q => Fin (Qred (- q))
  end.

Definition add (a b : number) : number :=
  match a, b with
  | NaN, _ | _, NaN => NaN
  | Inf s, Inf s' => if Bool.eqb s s' then Inf s else NaN
  | Inf s, Fin _ | Fin _, Inf s => Inf s
  | Fin p, Fin q => round64 (p + q)
  end.

Definition sub (a b : number) : number := add a (neg b).

Definition mul (a b : number) : number :=
  match a, b with
  | NaN, _ | _, NaN => NaN
  | Inf s, Inf s' => Inf (xorb s s')
  | Inf s, Fin q | Fin q, Inf s =>
      if Qeq_bool q 0 then NaN else Inf (xorb s (isNeg q))
  | Fin p, Fin q => round64 (p * q)
  end.

Definition div (a b : number) : number :=
  match a, b with
  | NaN, _ | _, NaN => NaN
  | Inf _, Inf _ => NaN
  | Inf s, Fin q => Inf (xorb s (isNeg q))
  | Fin _, Inf _ => Fin 0
  | Fin p, Fin q =>
      if Qeq_bool q 0
      then (if Qeq_bool p 0 then NaN else Inf (isNeg p))
      else round64 (p / q)
  end.

(** [a < b]; false as soon as one side is [NaN]. *)
Definition lt (a b : number) : bool :=
  match a, b with
  | NaN, _ | _, NaN => false
  | Inf s, Inf s' => s && negb s'
  | Inf s, Fin _ => s
  | Fin _, Inf s => negb s
  | Fin p, Fin q => negb (Qle_bool q p)
  end.

Definition gt (a b : number) : bool := lt b a.

(** [a === b] on numbers. *)
Definition strictEq (a b : number) : bool :=
  match a, b with
  | Inf s, Inf s' => Bool.eqb s s'
  | Fin p, Fin q => Qeq_bool p q
  | _, _ => false
  end.

(** [a <= b] and [a >= b]; false as soon as one side is [NaN]. *)
Definition le (a b : number) : bool := lt a b || strictEq a b.
Definition ge (a b : number) : bool := le b a.

Definition Number_isFinite (a : number) : bool :=
  match a with Fin _ => true | _ => false end.

Definition Math_abs (a : number) : number :=
  match a with
  | NaN => NaN
  | Inf _ => Inf false
  | Fin q => Fin (Qred (Qabs q))
  end.

Definition Math_max (a b : number) : number :=
  match a, b with
  | NaN, _ | _, NaN => NaN
  | _, _ => if lt a b then b else a
  end.

Definition Math_min (a b : number) : number :=
  match a, b with
  | NaN, _ | _, NaN => NaN
  | _, _ => if lt b a then b else a
  end.

(** [Math.round]: the nearest integer, halves going up.  The result of
    a binary64 value is a binary64 value, so nothing is rounded twice. *)
Definition Math_round (a : number) : number :=
  match a with
  | Fin q => Fin (inject_Z (Qfloor (q + (1 # 2))))
  | _ => a
  end.

(** ** Strings

    A string is the sequence of its characters.  The operations below
    are those of JavaScript on strings of ASCII characters (code units
    below 128), the strings the engine builds and parses: there the
    white space of [trim] and [Number] is TAB, LF, VT, FF, CR and the
    space, and [toUpperCase] maps the letters a to z.  On other
    characters JavaScript goes further ([trim] also drops U+00A0, U+FEFF
    and the Unicode space separators, [toUpperCase] maps further
    letters), which the model does not follow: [isAscii], below, marks
    the strings on which the model is the code.  A text that is only
    built and shown, such as a reason, holds a character beyond ASCII as
    its UTF-8 bytes. *)

Definition isWhiteSpace (c : ascii) : bool :=
  let n := nat_of_ascii c in
  ((9 <=? n) && (n <=? 13) || (n =? 32))%nat.

Definition isDigit (c : ascii) : bool :=
  let n := nat_of_ascii c in ((48 <=? n) && (n <=? 57))%nat.

Definition isEmpty (s : string) : bool :=
  match s with EmptyString => true | _ => false end.

Fixpoint trimStart (s : string) : string :=
  match s with
  | String c s' => if isWhiteSpace c then trimStart s' else s
  | EmptyString => EmptyString
  end.

Fixpoint trimEnd (s : string) : string :=
  match s with
  | EmptyString => EmptyString
  | String c s' =>
      let r := trimEnd s' in
      if isWhiteSpace c && isEmpty r then EmptyString else String c r
  end.

Definition trim (s : string) : string := trimEnd (trimStart s).

Definition upper (c : ascii) : ascii :=
  let n := nat_of_ascii c in
  if ((97 <=? n) && (n <=? 122))%nat then ascii_of_nat (n - 32) else c.

Fixpoint toUpperCase (s : string) : string :=
  match s with
  | EmptyString => EmptyString
  | String c s' => String (upper c) (toUpperCase s')
  end.

(** [s.replaceAll(c, r)] for a pattern [c] of one character. *)
Fixpoint replaceAll (c : ascii) (r : string) (s : string) : string :=
  match s with
  | EmptyString => EmptyString
  | String d s' =>
      if Ascii.eqb d c then r ++ replaceAll c r s'
      else String d (replaceAll c r s')
  end.

(** [s.split(c)] for a separator [c] of one character: the pieces
    between the occurrences of [c], empty pieces included. *)
Fixpoint split (c : ascii) (s : string) : list string :=
  match s with
  | EmptyString => [EmptyString]
  | String d s' =>
      if Ascii.eqb d c then EmptyString :: split c s'
      else match split c s' with
           | p :: ps => String d p :: ps
           | [] => [String d EmptyString]
           end
  end.

Fixpoint repeatChar (c : ascii) (n : nat) : string :=
  match n with O => EmptyString | S n' => String c (repeatChar c n') end.

(** [s.padStart(n, c)] for a filler [c] of one character. *)
Definition padStart (n : nat) (c : ascii) (s : string) : string :=
  repeatChar c (n - String.length s) ++ s.

(** ** From strings to numbers: [Number(s)] *)

Fixpoint span (f : ascii -> bool) (s : string) : string * string :=
  match s with
  | String c s' =>
      if f c then let (a, b) := span f s' in (String c a, b)
      else (EmptyString, s)
  | EmptyString => (EmptyString, EmptyString)
  end.

(** Value of a digit of a hexadecimal, octal, binary or decimal literal. *)
Definition digitValue (c : ascii) : option Z :=
  let n := Z.of_nat (nat_of_ascii c) in
  if ((48 <=? n) && (n <=? 57))%Z then Some (n - 48)%Z
  else if ((65 <=? n) && (n <=? 70))%Z then Some (n - 55)%Z
  else if ((97 <=? n) && (n <=? 102))%Z then Some (n - 87)%Z
  else None.

(** Value of a string of digits in the given radix, read from the left
    with [acc] the value of the digits already read; [None] when a
    character is not a digit of the radix. *)
Fixpoint digitsFrom (radix acc : Z) (s : string) : option Z :=
  match s with
  | EmptyString => Some acc
  | String c s' =>
      match digitValue c with
      | Some d =>
          if (d <? radix)%Z then digitsFrom radix (radix * acc + d) s'
          else None
      | None => None
      end
  end.

(** A literal of the given radix after its two-character prefix: at
    least one digit, and nothing but digits. *)
Definition radixLiteral (radix : Z) (s : string) : number :=
  if isEmpty s then NaN
  else match digitsFrom radix 0 s with
       | Some v => round64 (inject_Z v)
       | None => NaN
       end.

Definition digitsZ (s : string) : Z :=
  match digitsFrom 10 0 s with Some v => v | None => 0%Z end.

(** An optional sign: whether it is a minus, and the rest. *)
Definition signOf (s : string) : bool * string :=
  match s with
  | String "-" s' => (true, s')
  | String "+" s' => (false, s')
  | _ => (false, s)
  end.

(** The exponent part of a decimal literal: nothing, or [e] or [E], an
    optional sign and at least one digit. *)
Definition exponentPart (s : string) : option Z :=
  match s with
  | EmptyString => Some 0%Z
  | String c s' =>
      if Ascii.eqb c "e" || Ascii.eqb c "E" then
        let (sg, s1) := signOf s' in
        let (ds, rest) := span isDigit s1 in
        if isEmpty ds || negb (isEmpty rest) then None
        else Some (if sg then - digitsZ ds else digitsZ ds)%Z
      else None
  end.

(** The exact value of an unsigned decimal literal: digits with an
    optional fraction (one of the two digit strings may be empty, not
    both) and an optional exponent. *)
Definition decimalValue (s : string) : option Q :=
  let (ip, s1) := span isDigit s in
  let (fp, s2) :=
    match s1 with
    | String "." s1' => span isDigit s1'
    | _ => (EmptyString, s1)
    end in
  if isEmpty ip && isEmpty fp then None
  else match exponentPart s2 with
       | Some e =>
           Some (inject_Z (digitsZ (ip ++ fp))
                 * 10 ^ (e - Z.of_nat (String.length fp)))
       | None => None
       end.

Definition signed (sg : bool) (a : number) : number :=
  if sg then neg a else a.

(** [Number(s)]: white space around the literal is dropped; the empty
    string is 0; a literal is hexadecimal, octal or binary (unsigned), or
    [Infinity], or decimal; anything else is [NaN]. *)
Definition toNumber (s : string) : number :=
  match trim s with
  | EmptyString => Fin 0
  | String "0" (String "x" r) | String "0" (String "X" r) => radixLiteral 16 r
  | String "0" (String "o" r) | String "0" (String "O" r) => radixLiteral 8 r
  | String "0" (String "b" r) | String "0" (String "B" r) => radixLiteral 2 r
  | t =>
      let (sg, u) := signOf t in
      if String.eqb u "Infinity" then Inf sg
      else match decimalValue u with
           | Some v => signed sg (round64 v)
           | None => NaN
           end
  end.

(** ** From numbers to strings: [String(x)] and [x.toFixed(f)] *)

(** Decimal digits of a natural number, [0] for zero. *)
Definition digitsOf (z : Z) : string :=
  NilZero.string_of_uint (N.to_uint (Z.to_N z)).

Definition countDigits (z : Z) : Z := Z.of_nat (String.length (digitsOf z)).

(** [ilog10 x] is the integer [k] with [10^k <= x < 10^(k+1)], for
    [0 < x]. *)
Definition ilog10 (x : Q) : Z :=
  if Qle_bool 1 x then (countDigits (Qfloor x) - 1)%Z
  else (- countDigits (Qceiling (/ x) - 1))%Z.

Definition roundsTo (q x : Q) : bool :=
  match round64 q with
  | Fin r => Qeq_bool r x
  | _ => false
  end.

(** The shortest decimal that reads back as [x]: the least number [k] of
    digits and an integer [s] such that [s * 10^(n-k)] rounds to [x],
    the nearer to [x] when two integers do, the even one when both are as
    near.  Seventeen digits are enough for a binary64 value. *)
Fixpoint shortest (fuel : nat) (k n : Z) (x : Q) : Z :=
  let sc := 10 ^ (n - k) in
  let lo := Qfloor (x / sc) in
  match fuel with
  | O => lo
  | S fuel' =>
      let hi := (lo + 1)%Z in
      match roundsTo (inject_Z lo * sc) x, roundsTo (inject_Z hi * sc) x with
      | true, true =>
          match Qcompare (x - inject_Z lo * sc) (inject_Z hi * sc - x) with
          | Lt => lo
          | Gt => hi
          | Eq => if Z.even lo then lo else hi
          end
      | true, false => lo
      | false, true => hi
      | false, false => shortest fuel' (k + 1)%Z n x
      end
  end.

Fixpoint takeStr (n : nat) (s : string) : string :=
  match n, s with
  | S n', String c s' => String c (takeStr n' s')
  | _, _ => EmptyString
  end.

Fixpoint dropStr (n : nat) (s : string) : string :=
  match n, s with
  | S n', String _ s' => dropStr n' s'
  | _, _ => s
  end.

(** [Number::toString] of a positive finite value, radix 10: the digits
    [ds] of the shortest decimal and the position [n] of the decimal
    point, laid out as an integer, a fraction or in exponent notation. *)
Definition toStringPos (x : Q) : string :=
  let n0 := (ilog10 x + 1)%Z in
  let s := shortest 17 1 n0 x in
  let ds0 := digitsOf s in
  let carried := (s =? 10 ^ (Z.of_nat (String.length ds0) - 1))%Z
                 && negb (s =? 1)%Z in
  let ds := if carried then "1" else ds0 in
  let n := if carried then (n0 + 1)%Z else n0 in
  let k := Z.of_nat (String.length ds) in
  if ((k <=? n) && (n <=? 21))%Z then
    ds ++ repeatChar "0" (Z.to_nat (n - k))
  else if ((0 <? n) && (n <=? 21))%Z then
    takeStr (Z.to_nat n) ds ++ "." ++ dropStr (Z.to_nat n) ds
  else if ((-6 <? n) && (n <=? 0))%Z then
    "0." ++ repeatChar "0" (Z.to_nat (- n)) ++ ds
  else
    let e := (n - 1)%Z in
    let mant := if (k =? 1)%Z then ds
                else takeStr 1 ds ++ "." ++ dropStr 1 ds in
    mant ++ "e" ++ (if (e <? 0)%Z then "-" else "+") ++ digitsOf (Z.abs e).

Definition toString (a : number) : string :=
  match a with
  | NaN => "NaN"
  | Inf false => "Infinity"
  | Inf true => "-Infinity"
  | Fin q =>
      if Qeq_bool q 0 then "0"
      else if isNeg q then "-" ++ toStringPos (- q)
      else toStringPos q
  end.

(** [x.toFixed(f)]: the integer [n] nearest to [x * 10^f], the larger
    one at a half, written with [f] digits after the point; values of
    magnitude [10^21] or more, and values that are not finite, print as
    [String(x)]. *)
Definition toFixed (f : nat) (a : number) : string :=
  match a with
  | Fin q =>
      let x := Qabs q in
      if Qle_bool (10 ^ 21) x then toString a
      else
        let n := Qfloor (x * 10 ^ Z.of_nat f + (1 # 2)) in
        let m := padStart (f + 1) "0" (digitsOf n) in
        let k := (String.length m - f)%nat in
        (if isNeg q then "-" else "")
        ++ takeStr k m
        ++ (if (f =? 0)%nat then "" else "." ++ dropStr k m)
  | _ => toString a
  end.

End JS.

(** * The engine of [src/app/page.tsx] *)

Import JS.

Definition DEMO_VRM : string := "Y14 DRT".
Definition OEM_TYRE : string := "265/30 R20".

(** Geometry-only safety limits. *)
Record Limits : Type := {
  diameterPctMax : number;
  widthDeltaMaxMm : number;
  aspectDeltaMaxForFullPenalty : number;
  minScoreShown : number
}.

Definition LIMITS : Limits := {|
  diameterPctMax := ofZ 3;
  widthDeltaMaxMm := ofZ 25;
  aspectDeltaMaxForFullPenalty := ofZ 10;
  minScoreShown := ofZ 65
|}.

Record Tyre : Type := {
  widthMm : number;
  aspect : number;
  rimIn : number
}.

Definition normalise (s : string) : string :=
  replaceAll " " "" (toUpperCase (trim s)).

Definition parseTyreSize (input : string) : option Tyre :=
  let s := normalise input in
  match split "R" s with
  | [left_; rimStr] =>
      match split "/" left_ with
      | [lr0; lr1] =>
          let widthMm := toNumber lr0 in
          let aspect := toNumber lr1 in
          let rimIn := toNumber rimStr in
          if negb (Number_isFinite widthMm) || negb (Number_isFinite aspect)
             || negb (Number_isFinite rimIn) then None
          else if negb (String.length (toString widthMm) =? 3)%nat then None
          else if lt aspect (ofZ 10) || gt aspect (ofZ 95) then None
          else if lt rimIn (ofZ 10) || gt rimIn (ofZ 30) then None
          else Some {| widthMm := widthMm; aspect := aspect; rimIn := rimIn |}
      | _ => None
      end
  | _ => None
  end.

Definition formatTyreSize (t : Tyre) : string :=
  toString (widthMm t) ++ "/" ++ padStart 2 "0" (toString (aspect t))
  ++ " R" ++ toString (rimIn t).

(** The literal [25.4] is the binary64 value nearest to 254/10. *)
Definition inchMm : number := round64 (254 # 10).

Definition overallDiameterMm (t : Tyre) : number :=
  let rimMm := mul (rimIn t) inchMm in
  let sidewallMm := mul (widthMm t) (div (aspect t) (ofZ 100)) in
  add rimMm (mul (ofZ 2) sidewallMm).

Definition pctDiff (a b : number) : number :=
  mul (Math_abs (div (sub b a) a)) (ofZ 100).

Definition clamp (n min max : number) : number :=
  Math_max min (Math_min max n).

Definition sizeToSlug (size : string) : option string :=
  match parseTyreSize size with
  | None => None
  | Some t =>
      Some (toString (widthMm t) ++ "-" ++ padStart 2 "0" (toString (aspect t))
            ++ "-" ++ toString (rimIn t))
  end.

Record Links : Type := {
  blackcircles : option string;
  national : option string
}.

Definition retailerLinksForSize (size : string) : Links :=
  match sizeToSlug size with
  | None => {| blackcircles := None; national := None |}
  | Some slug =>
      {| blackcircles := Some ("https://www.blackcircles.com/tyres/" ++ slug);
         national := Some ("https://www.national.co.uk/tyres-search/" ++ slug) |}
  end.

Record Verdict : Type := {
  safe : bool;
  score : number;
  reasons : list string
}.

Definition scoreAlternative (oem alt : Tyre) : Verdict :=
  let oemDia := overallDiameterMm oem in
  let altDia := overallDiameterMm alt in
  let diaDiffPct := pctDiff oemDia altDia in
  if gt diaDiffPct (diameterPctMax LIMITS) then
    {| safe := false; score := ofZ 0;
       reasons := ["Diameter Δ " ++ toFixed 2 diaDiffPct ++ "% (limit "
                   ++ toString (diameterPctMax LIMITS) ++ "%)"] |}
  else if negb (strictEq (rimIn alt) (rimIn oem)) then
    {| safe := false; score := ofZ 0;
       reasons := ["Rim size differs from OEM"] |}
  else
    let widthDelta := Math_abs (sub (widthMm alt) (widthMm oem)) in
    if gt widthDelta (widthDeltaMaxMm LIMITS) then
      {| safe := false; score := ofZ 0;
         reasons := ["Width Δ " ++ toString widthDelta ++ "mm (limit ±"
                     ++ toString (widthDeltaMaxMm LIMITS) ++ "mm)"] |}
    else
      (* Score weights: diameter 55, width 25, aspect 20 *)
      let diaPenalty :=
        clamp (mul (div diaDiffPct (diameterPctMax LIMITS)) (ofZ 55))
              (ofZ 0) (ofZ 55) in
      let widthPenalty :=
        clamp (mul (div widthDelta (widthDeltaMaxMm LIMITS)) (ofZ 25))
              (ofZ 0) (ofZ 25) in
      let aspectDelta := Math_abs (sub (aspect alt) (aspect oem)) in
      let aspectPenalty :=
        clamp (mul (div aspectDelta (aspectDeltaMaxForFullPenalty LIMITS))
                   (ofZ 20))
              (ofZ 0) (ofZ 20) in
      let score :=
        clamp (Math_round
                 (sub (ofZ 100)
                      (add (add diaPenalty widthPenalty) aspectPenalty)))
              (ofZ 0) (ofZ 100) in
      {| safe := true; score := score;
         reasons := ["Diameter Δ " ++ toFixed 2 diaDiffPct ++ "%";
                     "Width Δ " ++ toString widthDelta ++ "mm";
                     "Aspect Δ " ++ toString aspectDelta] |}.

(** ** The search of [runSearch] *)

(** A candidate with its formatted size, as built by the first [map]. *)
Record Sized : Type := {
  sz_t : Tyre;
  sz_size : string
}.

(** A scored candidate before the last [map], which drops [safe]. *)
Record Scored : Type := {
  sc_size : string;
  sc_score : number;
  sc_reasons : list string;
  sc_safe : bool;
  sc_links : Links
}.

(** An entry of the list handed to the page. *)
Record Alt : Type := {
  size : string;
  alt_score : number;
  alt_reasons : list string;
  links : Links
}.

(** Candidate generation: nearby widths and aspects on the same rim, and
    a couple of combinations, in the order they are pushed. *)
Definition widths : list number := [ofZ (-20); ofZ (-10); ofZ 10; ofZ 20].
Definition aspects : list number := [ofZ (-5); ofZ 5].

Definition candidates (parsedOEM : Tyre) : list Tyre :=
  map (fun dw => {| widthMm := add (widthMm parsedOEM) dw;
                    aspect := aspect parsedOEM;
                    rimIn := rimIn parsedOEM |}) widths
  ++ map (fun da => {| widthMm := widthMm parsedOEM;
                       aspect := add (aspect parsedOEM) da;
                       rimIn := rimIn parsedOEM |}) aspects
  ++ [ {| widthMm := sub (widthMm parsedOEM) (ofZ 10);
          aspect := sub (aspect parsedOEM) (ofZ 5);
          rimIn := rimIn parsedOEM |};
       {| widthMm := add (widthMm parsedOEM) (ofZ 10);
          aspect := sub (aspect parsedOEM) (ofZ 5);
          rimIn := rimIn parsedOEM |} ].

(** The filter over the set [seen]: an entry is kept when its size has
    not been seen, and its size is then added to the set. *)
Fixpoint filterSeen (seen : list string) (xs : list Sized) : list Sized :=
  match xs with
  | [] => []
  | x :: xs' =>
      if existsb (String.eqb (sz_size x)) seen then filterSeen seen xs'
      else x :: filterSeen (sz_size x :: seen) xs'
  end.

Definition scoreSized (parsedOEM : Tyre) (x : Sized) : Scored :=
  let s := scoreAlternative parsedOEM (sz_t x) in
  {| sc_size := sz_size x;
     sc_score := score s;
     sc_reasons := reasons s;
     sc_safe := safe s;
     sc_links := retailerLinksForSize (sz_size x) |}.

Definition shown (x : Scored) : bool :=
  sc_safe x && ge (sc_score x) (minScoreShown LIMITS).

(** [Array.prototype.sort] with a comparison function: the sort is
    stable, [a] stays before a later [b] unless [cmp a b > 0], and a
    comparison that yields [NaN] counts as 0.  For a consistent
    comparison function the sorted array is determined by these rules,
    whatever the algorithm; here it is built by insertion from the right. *)
Section Sort.
Context {A : Type} (cmp : A -> A -> number).

Fixpoint insertSorted (a : A) (l : list A) : list A :=
  match l with
  | [] => [a]
  | b :: l' =>
      if gt (cmp a b) (ofZ 0) then b :: insertSorted a l'
      else a :: b :: l'
  end.

Fixpoint sort (l : list A) : list A :=
  match l with
  | [] => []
  | a :: l' => insertSorted a (sort l')
  end.
End Sort.

Definition byScoreDesc (a b : Scored) : number :=
  sub (sc_score b) (sc_score a).

Definition dropSafe (x : Scored) : Alt :=
  {| size := sc_size x;
     alt_score := sc_score x;
     alt_reasons := sc_reasons x;
     links := sc_links x |}.

(** The candidates other than the OEM size, without duplicates, each
    with its score, in the order of generation. *)
Definition scoredCandidates (oemSize : string) (parsedOEM : Tyre)
  : list Scored :=
  map (scoreSized parsedOEM)
    (filterSeen []
       (filter (fun x => negb (String.eqb (sz_size x) oemSize))
          (map (fun t => {| sz_t := t; sz_size := formatTyreSize t |})
             (candidates parsedOEM)))).

(** The rest of the chain: the safe candidates of score 65 or more,
    sorted by descending score. *)
Definition scoredFor (oemSize : string) (parsedOEM : Tyre) : list Scored :=
  sort byScoreDesc (filter shown (scoredCandidates oemSize parsedOEM)).

Definition alternativesFor (oemSize : string) (parsedOEM : Tyre) : list Alt :=
  map dropSafe (scoredFor oemSize parsedOEM).

(** The double quote character, as a string. *)
Definition quote : string := String (ascii_of_nat 34) EmptyString.

(** State of the page that [runSearch] reads and sets. *)
Record OemInfo : Type := {
  oem_vrm : string;
  oem_tyre : string
}.

Record PageState : Type := {
  vrm : string;
  error : string;
  oem : option OemInfo;
  alts : list Alt
}.

(** [runSearch], as a function of the OEM size it looks up; the page
    runs it with the constant [OEM_TYRE]. *)
Definition runSearchFor (oemSize : string) (st : PageState) : PageState :=
  let v := toUpperCase (trim (vrm st)) in
  if negb (String.eqb v DEMO_VRM) then
    {| vrm := vrm st;
       error := "DEMO ONLY: try " ++ quote ++ DEMO_VRM ++ quote;
       oem := None;
       alts := [] |}
  else
    match parseTyreSize oemSize with
    | None =>
        {| vrm := vrm st;
           error := "OEM tyre size invalid in demo.";
           oem := oem st;
           alts := alts st |}
    | Some parsedOEM =>
        {| vrm := vrm st;
           error := "";
           oem := Some {| oem_vrm := v; oem_tyre := oemSize |};
           alts := alternativesFor oemSize parsedOEM |}
    end.

Definition runSearch (st : PageState) : PageState := runSearchFor OEM_TYRE st.

(** * Notions used by the properties *)

(** A tyre with integer fields. *)
Definition mkTyre (w a r : Z) : Tyre :=
  {| widthMm := ofZ w; aspect := ofZ a; rimIn := ofZ r |}.

(** A well-formed size: an integer width of three decimal digits, an
    integer aspect in [10,95] and an integer rim in [10,30]. *)
Definition wellFormed (t : Tyre) : Prop :=
  exists w a r : Z,
    (100 <= w <= 999)%Z /\ (10 <= a <= 95)%Z /\ (10 <= r <= 30)%Z /\
    t = mkTyre w a r.

Definition isInteger (a : number) : Prop := exists z : Z, a = ofZ z.

Definition threeDigits (a : number) : Prop :=
  exists z : Z, (100 <= z <= 999)%Z /\ a = ofZ z.

(** The three deltas that [scoreAlternative] measures. *)
Definition diaDelta (oem alt : Tyre) : number :=
  pctDiff (overallDiameterMm oem) (overallDiameterMm alt).

Definition widthDelta (oem alt : Tyre) : number :=
  Math_abs (sub (widthMm alt) (widthMm oem)).

Definition aspectDelta (oem alt : Tyre) : number :=
  Math_abs (sub (aspect alt) (aspect oem)).

(** The percentage difference as the specification writes it:
    [|b - a| / a * 100]. *)
Definition pctOfOem (a b : number) : number :=
  mul (div (Math_abs (sub b a)) a) (ofZ 100).

(** The reasons of a candidate that passes the gates. *)
Definition deltaReasons (oem alt : Tyre) : list string :=
  ["Diameter Δ " ++ toFixed 2 (diaDelta oem alt) ++ "%";
   "Width Δ " ++ toString (widthDelta oem alt) ++ "mm";
   "Aspect Δ " ++ toString (aspectDelta oem alt)].

(** A list of reasons reports the three deltas when one reason starts
    with each of them. *)
Definition reportsDeltas (oem alt : Tyre) (rs : list string) : Prop :=
  (exists r, In r rs /\
     prefix ("Diameter Δ " ++ toFixed 2 (diaDelta oem alt)) r = true) /\
  (exists r, In r rs /\
     prefix ("Width Δ " ++ toString (widthDelta oem alt)) r = true) /\
  (exists r, In r rs /\
     prefix ("Aspect Δ " ++ toString (aspectDelta oem alt)) r = true).

(** One penalty of the weighted score: the delta against its limit,
    scaled to the weight and clamped to it. *)
Definition penalty (delta limit weight : number) : number :=
  clamp (mul (div delta limit) weight) (ofZ 0) weight.

(** The score of a candidate that passes the gates, from its three
    deltas. *)
Definition weightedScore (d w a : number) : number :=
  clamp (Math_round
           (sub (ofZ 100)
                (add (add (penalty d (diameterPctMax LIMITS) (ofZ 55))
                          (penalty w (widthDeltaMaxMm LIMITS) (ofZ 25)))
                     (penalty a (aspectDeltaMaxForFullPenalty LIMITS)
                              (ofZ 20)))))
        (ofZ 0) (ofZ 100).

(** The integer that a score holds. *)
Definition scoreZ (a : number) : Z :=
  match a with Fin q => Qfloor q | _ => 0%Z end.

(** Descending order of a key. *)
Definition keyDesc {A : Type} (key : A -> Z) (a b : A) : Prop :=
  (key b <= key a)%Z.

(** A scored entry whose score is an integer from 0 to 100. *)
Definition intScore (x : Scored) : Prop :=
  exists k : Z, (0 <= k <= 100)%Z /\ sc_score x = ofZ k.

Definition scoreKey (x : Scored) : Z := scoreZ (sc_score x).

(** The page once the demo registration has been typed in. *)
Definition demoState : PageState :=
  {| vrm := "Y14 DRT"; error := ""; oem := None; alts := [] |}.

(** Notions for the round trip: strings whose characters all satisfy a
    test, equality of numbers as terms, and what is checked of every
    field of a well-formed size. *)
Fixpoint allChars (f : ascii -> bool) (s : string) : bool :=
  match s with
  | EmptyString => true
  | String c s' => f c && allChars f s'
  end.

(** The strings of ASCII characters, on which [trim], [toUpperCase] and
    [toNumber] are those of the code. *)
Definition isAsciiChar (c : ascii) : bool := (nat_of_ascii c <? 128)%nat.

Definition isAscii (s : string) : bool := allChars isAsciiChar s.

Definition eqbNum (a b : number) : bool :=
  match a, b with
  | NaN, NaN => true
  | Inf s, Inf s' => Bool.eqb s s'
  | Fin p, Fin q => Z.eqb (Qnum p) (Qnum q) && Pos.eqb (Qden p) (Qden q)
  | _, _ => false
  end.

(** A field of a well-formed size prints as digits that read back as
    the field. *)
Definition printsBack (pad : nat) (z : Z) : bool :=
  let s := padStart pad "0" (toString (ofZ z)) in
  negb (isEmpty s) && allChars isDigit s && eqbNum (toNumber s) (ofZ z).

Definition okWidth (w : Z) : bool :=
  printsBack 0 w && (String.length (toString (ofZ w)) =? 3)%nat.

Definition okAspect (a : Z) : bool :=
  printsBack 2 a && negb (lt (ofZ a) (ofZ 10) || gt (ofZ a) (ofZ 95)).

Definition okRim (r : Z) : bool :=
  printsBack 0 r && negb (lt (ofZ r) (ofZ 10) || gt (ofZ r) (ofZ 30)).

Definition allFrom (lo : Z) (len : nat) (f : Z -> bool) : bool :=
  forallb (fun n => f (lo + Z.of_nat n)%Z) (seq 0 len).

(** A digit, or the slash between width and aspect. *)
Definition plain (c : ascii) : bool := isDigit c || Ascii.eqb c "/".

(** Binary64 values of the kernel, to compare the arithmetic of [JS]
    with: an integer as a float, and a number as the float it denotes
    (the quotient of two integers that a binary64 value holds exactly). *)
Fixpoint intOfPos (p : positive) : int :=
  match p with
  | xH => 1%uint63
  | xO p' => PrimInt63.lsl (intOfPos p') 1%uint63
  | xI p' => PrimInt63.lor (PrimInt63.lsl (intOfPos p') 1%uint63) 1%uint63
  end.

Definition floatOfZ (z : Z) : float :=
  match z with
  | Z0 => PrimFloat.zero
  | Zpos p => PrimFloat.of_uint63 (intOfPos p)
  | Zneg p => PrimFloat.opp (PrimFloat.of_uint63 (intOfPos p))
  end.

Definition toFloat (a : number) : float :=
  match a with
  | NaN => PrimFloat.nan
  | Inf s => if s then PrimFloat.neg_infinity else PrimFloat.infinity
  | Fin q => PrimFloat.div (floatOfZ (Qnum q)) (floatOfZ (Zpos (Qden q)))
  end.

(** [overallDiameterMm] and [pctDiff] on the floats of the kernel. *)
Definition overallDiameterF (w a r : Z) : float :=
  (floatOfZ r * 0x1.9666666666666p+4
   + 2 * (floatOfZ w * (floatOfZ a / 100)))%float.

Definition pctDiffF (a b : float) : float :=
  (PrimFloat.abs ((b - a) / a) * 100)%float.

(** The two arithmetics agree on the diameter of a size and on its
    difference to three sizes around it. *)
Definition agreesAt (w a r : Z) : bool :=
  PrimFloat.eqb (toFloat (overallDiameterMm (mkTyre w a r)))
                (overallDiameterF w a r)
  && forallb
       (fun d : Z * Z =>
          let (dw, da) := d in
          PrimFloat.eqb
            (toFloat (diaDelta (mkTyre w a r) (mkTyre (w + dw) (a + da) r)))
            (pctDiffF (overallDiameterF w a r)
                      (overallDiameterF (w + dw) (a + da) r)))
       [(-10, -5); (10, 5); (20, 0)]%Z.

Definition agreesOn (ws as_ rs : list Z) : bool :=
  forallb (fun w => forallb (fun a => forallb (agreesAt w a) rs) as_) ws.

(** The number prints as the decimal digits of the integer. *)
Definition printsDigits (z : Z) : bool :=
  String.eqb (toString (ofZ z)) (digitsOf z).

(** The label of a score on the page. *)
Record Label : Type := {
  text : string;
  color : string
}.

Definition scoreLabel (score : number) : Label :=
  if ge score (ofZ 90) then {| text := "S-Tier Fit"; color := "bg-emerald-500" |}
  else if ge score (ofZ 80) then {| text := "Great Fit"; color := "bg-lime-500" |}
  else if ge score (ofZ 70) then {| text := "OK Fit"; color := "bg-amber-500" |}
  else {| text := "Nope"; color := "bg-rose-500" |}.


(** * Properties *)

(** ** Agreement with the binary64 arithmetic of the kernel

    The numbers of [JS] round exact results; the floats of the kernel
    are binary64 values with the operations of IEEE 754.  On a grid of
    sizes the two give the same diameters and the same differences. *)

Lemma binary64_agreement :
  agreesOn [105; 185; 205; 265; 315; 995]%Z
           [10; 30; 35; 55; 80; 95]%Z
           [10; 16; 20; 30]%Z = true.
Proof. vm_compute. reflexivity. Qed.

(** ** Order on numbers *)

Lemma Qle_bool_false (p q : Q) : Qle_bool p q = false -> (q < p)%Q.
Proof.
  intros H. apply Qnot_le_lt. intros Hle.
  apply Qle_bool_iff in Hle. congruence.
Qed.

Lemma le_Fin (p q : Q) : le (Fin p) (Fin q) = true <-> (p <= q)%Q.
Proof.
  unfold le, lt, strictEq. split.
  - intros H. apply orb_true_iff in H. destruct H as [H | H].
    + apply negb_true_iff in H. apply Qle_bool_false in H.
      apply Qlt_le_weak; exact H.
    + apply Qeq_bool_iff in H. rewrite H. apply Qle_refl.
  - intros H. destruct (Qle_bool q p) eqn:E; [| reflexivity].
    apply Qle_bool_iff in E. simpl. apply Qeq_bool_iff.
    apply Qle_antisym; assumption.
Qed.

Lemma lt_Fin (p q : Q) : lt (Fin p) (Fin q) = true <-> (p < q)%Q.
Proof.
  unfold lt. split.
  - intros H. apply negb_true_iff in H. apply Qle_bool_false; exact H.
  - intros H. apply negb_true_iff. destruct (Qle_bool q p) eqn:E; [| reflexivity].
    apply Qle_bool_iff in E. exfalso. apply (Qlt_not_le _ _ H E).
Qed.

(** [a <= b] is the negation of [b < a] on numbers other than [NaN]. *)
Lemma lt_false_le (a b : number) :
  a <> NaN -> b <> NaN -> lt b a = false -> le a b = true.
Proof.
  intros Ha Hb H. destruct a as [| s | p], b as [| s' | q]; try congruence.
  - destruct s, s'; simpl in H; try discriminate; reflexivity.
  - simpl in H. apply negb_false_iff in H. subst s. reflexivity.
  - simpl in H. subst s'. reflexivity.
  - apply le_Fin. simpl in H. apply negb_false_iff in H.
    apply Qle_bool_iff; exact H.
Qed.

Lemma le_not_NaN (a b : number) : le a b = true -> a <> NaN /\ b <> NaN.
Proof.
  destruct a, b; unfold le; simpl; intros H; split; congruence.
Qed.

(** ** Parsing *)

Lemma isFinite_Fin (a : number) :
  Number_isFinite a = true -> exists q, a = Fin q.
Proof. destruct a; simpl; try discriminate. intros _. eexists; reflexivity. Qed.

(** What every successful parse has gone through. *)
Lemma parse_inv (input : string) (t : Tyre) :
  parseTyreSize input = Some t ->
  exists left_ lr0 lr1 rimStr,
    split "R" (normalise input) = [left_; rimStr] /\
    split "/" left_ = [lr0; lr1] /\
    t = {| widthMm := toNumber lr0; aspect := toNumber lr1;
           rimIn := toNumber rimStr |} /\
    Number_isFinite (widthMm t) = true /\
    Number_isFinite (aspect t) = true /\
    Number_isFinite (rimIn t) = true /\
    String.length (toString (widthMm t)) = 3%nat /\
    lt (aspect t) (ofZ 10) = false /\ gt (aspect t) (ofZ 95) = false /\
    lt (rimIn t) (ofZ 10) = false /\ gt (rimIn t) (ofZ 30) = false.
Proof.
  unfold parseTyreSize.
  destruct (split "R" (normalise input)) as [| left_ [| rimStr [| ? ?]]] eqn:S1;
    try discriminate.
  destruct (split "/" left_) as [| lr0 [| lr1 [| ? ?]]] eqn:S2;
    try discriminate.
  cbv zeta.
  destruct (Number_isFinite (toNumber lr0)) eqn:Fw; [| discriminate].
  destruct (Number_isFinite (toNumber lr1)) eqn:Fa; [| discriminate].
  destruct (Number_isFinite (toNumber rimStr)) eqn:Fr; [| discriminate].
  cbn [negb orb].
  destruct (String.length (toString (toNumber lr0)) =? 3)%nat eqn:L;
    [| discriminate].
  cbn [negb].
  destruct (lt (toNumber lr1) (ofZ 10)) eqn:A1; [discriminate |].
  destruct (gt (toNumber lr1) (ofZ 95)) eqn:A2; [discriminate |].
  destruct (lt (toNumber rimStr) (ofZ 10)) eqn:R1; [discriminate |].
  destruct (gt (toNumber rimStr) (ofZ 30)) eqn:R2; [discriminate |].
  cbn [orb]. intros E. injection E as <-.
  exists left_, lr0, lr1, rimStr. cbn [widthMm aspect rimIn].
  apply Nat.eqb_eq in L.
  repeat (split; [first [reflexivity | assumption] |]). assumption.
Qed.

(** C2, as the code has it.  A parse succeeds only if the width prints
    as exactly three characters, the aspect lies in [10,95] and the rim
    lies in [10,30]; any violation is a parse failure. *)
Theorem parse_checks (input : string) (t : Tyre) :
  parseTyreSize input = Some t ->
  String.length (toString (widthMm t)) = 3%nat /\
  le (ofZ 10) (aspect t) = true /\ le (aspect t) (ofZ 95) = true /\
  le (ofZ 10) (rimIn t) = true /\ le (rimIn t) (ofZ 30) = true.
Proof.
  intros H. apply parse_inv in H.
  destruct H as (l & w & a & r & _ & _ & _ & Fw & Fa & Fr & L & A1 & A2 & R1 & R2).
  apply isFinite_Fin in Fa, Fr. destruct Fa as [qa Ea], Fr as [qr Er].
  split; [exact L |].
  rewrite Ea, Er in *.
  repeat split; apply lt_false_le; (discriminate || assumption).
Qed.

Lemma parse_checks_witness :
  parseTyreSize "265/30 R20" = Some (mkTyre 265 30 20) /\
  String.length (toString (widthMm (mkTyre 265 30 20))) = 3%nat /\
  le (ofZ 10) (aspect (mkTyre 265 30 20)) = true /\
  le (aspect (mkTyre 265 30 20)) (ofZ 95) = true /\
  le (ofZ 10) (rimIn (mkTyre 265 30 20)) = true /\
  le (rimIn (mkTyre 265 30 20)) (ofZ 30) = true.
Proof.
  split; [vm_compute; reflexivity |].
  apply (parse_checks "265/30 R20" (mkTyre 265 30 20)).
  vm_compute; reflexivity.
Defined.

(** C2 as stated fails: ["-12/30 R20"] parses, and its width, -12, prints
    as three characters without being a number of three digits. *)
Lemma parse_accepts_negative_width :
  parseTyreSize "-12/30 R20" = Some (mkTyre (-12) 30 20) /\
  ~ threeDigits (widthMm (mkTyre (-12) 30 20)).
Proof.
  split; [vm_compute; reflexivity |].
  intros (z & Hz & E). unfold mkTyre, ofZ in E. cbn [widthMm] in E.
  injection E as E. lia.
Qed.

(** C9, as the code has it.  The three fields of every size produced
    by a parse are finite numbers: none is [NaN] or an infinity. *)
Theorem parse_fields_finite (input : string) (t : Tyre) :
  parseTyreSize input = Some t ->
  exists w a r : Q,
    t = {| widthMm := Fin w; aspect := Fin a; rimIn := Fin r |}.
Proof.
  intros H. apply parse_inv in H.
  destruct H as (l & w & a & r & _ & _ & -> & Fw & Fa & Fr & _).
  cbn [widthMm aspect rimIn] in *.
  apply isFinite_Fin in Fw, Fa, Fr.
  destruct Fw as [qw ->], Fa as [qa ->], Fr as [qr ->].
  exists qw, qa, qr. reflexivity.
Qed.

Lemma parse_fields_finite_witness :
  parseTyreSize "265/10.5 R20"
    = Some {| widthMm := Fin 265; aspect := Fin (21 # 2); rimIn := Fin 20 |} /\
  exists w a r : Q,
    {| widthMm := Fin 265; aspect := Fin (21 # 2); rimIn := Fin 20 |}
    = {| widthMm := Fin w; aspect := Fin a; rimIn := Fin r |}.
Proof.
  split; [vm_compute; reflexivity |].
  apply (parse_fields_finite "265/10.5 R20").
  vm_compute; reflexivity.
Defined.

(** C9 as stated fails: ["1.5/30 R20"] parses, and its width, 1.5, is
    not an integer. *)
Lemma parse_accepts_fractional_width :
  parseTyreSize "1.5/30 R20"
    = Some {| widthMm := Fin (3 # 2); aspect := Fin 30; rimIn := Fin 20 |} /\
  ~ isInteger (Fin (3 # 2)).
Proof.
  split; [vm_compute; reflexivity |].
  intros (z & E). unfold ofZ, inject_Z in E. discriminate E.
Qed.

(** ** Round trip *)

Lemma allFrom_spec lo len f :
  allFrom lo len f = true ->
  forall z, (lo <= z < lo + Z.of_nat len)%Z -> f z = true.
Proof.
  unfold allFrom. intros H z Hz. rewrite forallb_forall in H.
  specialize (H (Z.to_nat (z - lo))).
  replace (lo + Z.of_nat (Z.to_nat (z - lo)))%Z with z in H by lia.
  apply H. apply in_seq. lia.
Qed.

Lemma eqbNum_eq a b : eqbNum a b = true -> a = b.
Proof.
  destruct a as [| s | [pn pd]], b as [| s' | [qn qd]]; simpl;
    try discriminate; intros H.
  - reflexivity.
  - apply Bool.eqb_prop in H. congruence.
  - apply andb_true_iff in H. destruct H as [H1 H2].
    apply Z.eqb_eq in H1. apply Pos.eqb_eq in H2. congruence.
Qed.

Lemma okWidth_all : allFrom 100 900 okWidth = true.
Proof. vm_compute. reflexivity. Qed.

Lemma okAspect_all : allFrom 10 86 okAspect = true.
Proof. vm_compute. reflexivity. Qed.

Lemma okRim_all : allFrom 10 21 okRim = true.
Proof. vm_compute. reflexivity. Qed.

(** *** Strings of digits under [normalise] and [split] *)

Lemma append_assoc (s t u : string) : (s ++ t) ++ u = s ++ (t ++ u).
Proof. induction s as [| c s IH]; simpl; [| rewrite IH]; reflexivity. Qed.

Lemma allChars_app f s t :
  allChars f (s ++ t) = allChars f s && allChars f t.
Proof.
  induction s as [| c s IH]; simpl; [reflexivity |].
  rewrite IH. apply andb_assoc.
Qed.

Lemma allChars_impl (f g : ascii -> bool) s :
  (forall c, f c = true -> g c = true) ->
  allChars f s = true -> allChars g s = true.
Proof.
  intros Hfg. induction s as [| c s IH]; simpl; [reflexivity |].
  intros H. apply andb_true_iff in H. destruct H as [Hc Hs].
  rewrite (Hfg c Hc), (IH Hs). reflexivity.
Qed.

Lemma plain_facts (c : ascii) :
  plain c = true ->
  isWhiteSpace c = false /\ upper c = c /\
  Ascii.eqb c " " = false /\ Ascii.eqb c "R" = false.
Proof.
  destruct c as [[] [] [] [] [] [] [] []]; vm_compute; intros H;
    try discriminate; repeat split.
Qed.

Lemma digit_facts (c : ascii) :
  isDigit c = true -> plain c = true /\ Ascii.eqb c "/" = false.
Proof.
  destruct c as [[] [] [] [] [] [] [] []]; vm_compute; intros H;
    try discriminate; repeat split.
Qed.

Lemma digits_plain s : allChars isDigit s = true -> allChars plain s = true.
Proof. apply allChars_impl. intros c H. apply (digit_facts c H). Qed.

Lemma trimEnd_plain s : allChars plain s = true -> trimEnd s = s.
Proof.
  induction s as [| c s IH]; simpl; [reflexivity |].
  intros H. apply andb_true_iff in H. destruct H as [Hc Hs].
  rewrite (IH Hs). destruct (plain_facts c Hc) as [-> _]. reflexivity.
Qed.

Lemma trimEnd_app s t :
  isEmpty t = false -> allChars plain t = true -> trimEnd (s ++ t) = s ++ t.
Proof.
  intros Hne Ht. induction s as [| c s IH]; simpl.
  - apply trimEnd_plain; exact Ht.
  - rewrite IH. destruct (s ++ t) eqn:E.
    + destruct s; simpl in E; [subst t |]; discriminate.
    + simpl. rewrite andb_false_r. reflexivity.
Qed.

Lemma toUpperCase_app s t :
  toUpperCase (s ++ t) = toUpperCase s ++ toUpperCase t.
Proof. induction s as [| c s IH]; simpl; [| rewrite IH]; reflexivity. Qed.

Lemma toUpperCase_plain s : allChars plain s = true -> toUpperCase s = s.
Proof.
  induction s as [| c s IH]; simpl; [reflexivity |].
  intros H. apply andb_true_iff in H. destruct H as [Hc Hs].
  rewrite (IH Hs). destruct (plain_facts c Hc) as (_ & -> & _). reflexivity.
Qed.

Lemma replaceAll_app c r s t :
  replaceAll c r (s ++ t) = replaceAll c r s ++ replaceAll c r t.
Proof.
  induction s as [| d s IH]; simpl; [reflexivity |].
  rewrite IH. destruct (Ascii.eqb d c); [| reflexivity].
  symmetry. apply append_assoc.
Qed.

Lemma replaceAll_plain s :
  allChars plain s = true -> replaceAll " " "" s = s.
Proof.
  induction s as [| c s IH]; simpl; [reflexivity |].
  intros H. apply andb_true_iff in H. destruct H as [Hc Hs].
  rewrite (IH Hs). destruct (plain_facts c Hc) as (_ & _ & -> & _).
  reflexivity.
Qed.

Lemma split_none c s :
  allChars (fun d => negb (Ascii.eqb d c)) s = true -> split c s = [s].
Proof.
  induction s as [| d s IH]; simpl; [reflexivity |].
  intros H. apply andb_true_iff in H. destruct H as [Hd Hs].
  apply negb_true_iff in Hd. rewrite Hd, (IH Hs). reflexivity.
Qed.

Lemma split_app c s t :
  allChars (fun d => negb (Ascii.eqb d c)) s = true ->
  split c (s ++ String c t) = s :: split c t.
Proof.
  induction s as [| d s IH]; simpl.
  - intros _. rewrite Ascii.eqb_refl. reflexivity.
  - intros H. apply andb_true_iff in H. destruct H as [Hd Hs].
    apply negb_true_iff in Hd. rewrite Hd, (IH Hs). reflexivity.
Qed.

Lemma plain_noR s :
  allChars plain s = true ->
  allChars (fun d => negb (Ascii.eqb d "R")) s = true.
Proof.
  apply allChars_impl. intros c H.
  destruct (plain_facts c H) as (_ & _ & _ & ->). reflexivity.
Qed.

Lemma digits_noSlash s :
  allChars isDigit s = true ->
  allChars (fun d => negb (Ascii.eqb d "/")) s = true.
Proof.
  apply allChars_impl. intros c H.
  destruct (digit_facts c H) as (_ & ->). reflexivity.
Qed.

(** The formatted string of three digit strings is normalised and split
    back into the three of them. *)
Lemma normalise_joined sw sa sr :
  isEmpty sw = false -> isEmpty sr = false ->
  allChars isDigit sw = true -> allChars isDigit sa = true ->
  allChars isDigit sr = true ->
  normalise (sw ++ "/" ++ sa ++ " R" ++ sr) = (sw ++ "/" ++ sa) ++ "R" ++ sr.
Proof.
  intros Hw Hr Dw Da Dr. unfold normalise, trim.
  assert (Pw := digits_plain _ Dw). assert (Pa := digits_plain _ Da).
  assert (Pr := digits_plain _ Dr).
  assert (Ts : trimStart (sw ++ "/" ++ sa ++ " R" ++ sr)
               = sw ++ "/" ++ sa ++ " R" ++ sr).
  { destruct sw as [| c sw]; [discriminate |]. simpl in *.
    apply andb_true_iff in Pw. destruct Pw as [Pc _].
    destruct (plain_facts c Pc) as [-> _]. reflexivity. }
  rewrite Ts.
  assert (Te : trimEnd (sw ++ "/" ++ sa ++ " R" ++ sr)
               = sw ++ "/" ++ sa ++ " R" ++ sr).
  { replace (sw ++ "/" ++ sa ++ " R" ++ sr)
      with ((sw ++ "/" ++ sa ++ " R") ++ sr)
      by (rewrite !append_assoc; reflexivity).
    apply trimEnd_app; assumption. }
  rewrite Te, !toUpperCase_app, !replaceAll_app.
  rewrite (toUpperCase_plain _ Pw), (toUpperCase_plain _ Pa),
    (toUpperCase_plain _ Pr).
  rewrite (replaceAll_plain _ Pw), (replaceAll_plain _ Pa),
    (replaceAll_plain _ Pr).
  rewrite !append_assoc. reflexivity.
Qed.

Lemma split_joined sw sa sr :
  allChars isDigit sw = true -> allChars isDigit sa = true ->
  allChars isDigit sr = true ->
  split "R" ((sw ++ "/" ++ sa) ++ "R" ++ sr) = [sw ++ "/" ++ sa; sr] /\
  split "/" (sw ++ "/" ++ sa) = [sw; sa].
Proof.
  intros Dw Da Dr. split.
  - change ("R" ++ sr) with (String "R" sr).
    rewrite split_app, split_none; [reflexivity | |].
    + apply plain_noR, digits_plain, Dr.
    + apply plain_noR. rewrite !allChars_app.
      rewrite (digits_plain _ Dw), (digits_plain _ Da). reflexivity.
  - change ("/" ++ sa) with (String "/" sa).
    rewrite split_app, split_none; [reflexivity | |];
      apply digits_noSlash; assumption.
Qed.

(** C1.  Parsing the formatted string of a well-formed size yields the
    size back. *)
Theorem parse_format_roundtrip (t : Tyre) :
  wellFormed t -> parseTyreSize (formatTyreSize t) = Some t.
Proof.
  intros (w & a & r & Hw & Ha & Hr & ->).
  assert (Ow := allFrom_spec _ _ _ okWidth_all w ltac:(simpl; lia)).
  assert (Oa := allFrom_spec _ _ _ okAspect_all a ltac:(simpl; lia)).
  assert (Or := allFrom_spec _ _ _ okRim_all r ltac:(simpl; lia)).
  unfold okWidth, okAspect, okRim, printsBack in Ow, Oa, Or.
  change (padStart 0 "0" ?s) with s in Ow, Or.
  repeat match goal with
         | H : _ && _ = true |- _ => apply andb_true_iff in H; destruct H
         end.
  repeat match goal with
         | H : eqbNum _ _ = true |- _ => apply eqbNum_eq in H
         | H : negb _ = true |- _ => apply negb_true_iff in H
         end.
  unfold formatTyreSize, parseTyreSize. cbn [widthMm aspect rimIn mkTyre].
  set (sw := toString (ofZ w)) in *.
  set (sa := padStart 2 "0" (toString (ofZ a))) in *.
  set (sr := toString (ofZ r)) in *.
  rewrite normalise_joined by assumption.
  destruct (split_joined sw sa sr) as [-> ->]; try assumption.
  cbv zeta.
  repeat match goal with
         | H : toNumber _ = _ |- _ => rewrite H
         end.
  subst sw.
  repeat match goal with
         | H : _ = false |- _ => rewrite H
         | H : _ = true |- _ => rewrite H
         end.
  reflexivity.
Qed.

Lemma parse_format_roundtrip_witness :
  wellFormed (mkTyre 265 30 20) /\
  parseTyreSize (formatTyreSize (mkTyre 265 30 20)) = Some (mkTyre 265 30 20).
Proof.
  assert (W : wellFormed (mkTyre 265 30 20)).
  { exists 265%Z, 30%Z, 20%Z. repeat split; (lia || reflexivity). }
  split; [exact W |].
  apply (parse_format_roundtrip (mkTyre 265 30 20) W).
Defined.


(** * Rounding and order *)

Open Scope Q_scope.

(** ** Powers of two *)

Lemma two_neq_0 : ~ 2 == 0.
Proof. intros H. discriminate H. Qed.

Lemma pow2_pos (k : Z) : 0 < 2 ^ k.
Proof. apply Qpower_0_lt. reflexivity. Qed.

Lemma pow2_add (a b : Z) : 2 ^ (a + b) == 2 ^ a * 2 ^ b.
Proof. apply Qpower_plus, two_neq_0. Qed.

Lemma pow2_Z (a : Z) : (0 <= a)%Z -> inject_Z (2 ^ a) == 2 ^ a.
Proof. intros H. apply (Zpower_Qpower 2 a H). Qed.

Lemma pow2_le (a b : Z) : (a <= b)%Z -> 2 ^ a <= 2 ^ b.
Proof. intros H. apply Qpower_le_compat_l; [exact H | discriminate]. Qed.

Lemma pow2_lt_inv (a b : Z) : 2 ^ a < 2 ^ b -> (a < b)%Z.
Proof. intros H. apply (Qpower_lt_compat_l_inv 2); [exact H | reflexivity]. Qed.

(** ** The binary logarithm *)

Lemma log2_Q (n : Z) :
  (0 < n)%Z ->
  2 ^ Z.log2 n <= inject_Z n /\ inject_Z n < 2 ^ (Z.log2 n + 1).
Proof.
  intros Hn. destruct (Z.log2_spec n Hn) as [H1 H2].
  assert (H0 := Z.log2_nonneg n). split.
  - rewrite <- pow2_Z by exact H0. rewrite <- Zle_Qle. exact H1.
  - rewrite <- pow2_Z by lia. rewrite <- Zlt_Qlt.
    replace (Z.log2 n + 1)%Z with (Z.succ (Z.log2 n)) by lia. exact H2.
Qed.

Lemma ilog2_bounds (x : Q) :
  0 < x -> 2 ^ ilog2 x <= x /\ x < 2 ^ (ilog2 x + 1).
Proof.
  destruct x as [n d]. intros Hx.
  assert (Hn : (0 < n)%Z) by (unfold Qlt in Hx; simpl in Hx; lia).
  unfold ilog2. cbn [Qnum Qden].
  destruct (log2_Q n Hn) as [Ha1 Ha2].
  destruct (log2_Q (Zpos d) eq_refl) as [Hb1 Hb2].
  set (a := Z.log2 n) in *. set (b := Z.log2 (Zpos d)) in *.
  assert (Hd : 0 < inject_Z (Zpos d)) by reflexivity.
  assert (E : n # d == inject_Z n / inject_Z (Zpos d)) by apply Qmake_Qdiv.
  assert (Up : n # d < 2 ^ (a - b + 1)).
  { rewrite E. apply Qlt_shift_div_r; [exact Hd |].
    apply Qlt_le_trans with (2 ^ (a + 1)); [exact Ha2 |].
    replace (a + 1)%Z with ((a - b + 1) + b)%Z by lia.
    rewrite pow2_add. apply Qmult_le_l; [apply pow2_pos | exact Hb1]. }
  assert (Lo : 2 ^ (a - b - 1) < n # d).
  { rewrite E. apply Qlt_shift_div_l; [exact Hd |].
    apply Qlt_le_trans with (2 ^ a); [| exact Ha1].
    replace a with ((a - b - 1) + (b + 1))%Z at 2 by lia.
    rewrite pow2_add. apply Qmult_lt_l; [apply pow2_pos | exact Hb2]. }
  destruct (Qle_bool (2 ^ (a - b)) (n # d)) eqn:B.
  - apply Qle_bool_iff in B. split; assumption.
  - apply Qle_bool_false in B. split.
    + apply Qlt_le_weak. exact Lo.
    + replace (a - b - 1 + 1)%Z with (a - b)%Z by lia. exact B.
Qed.

Lemma ilog2_unique (x : Q) (k : Z) :
  2 ^ k <= x -> x < 2 ^ (k + 1) -> ilog2 x = k.
Proof.
  intros H1 H2.
  assert (Hx : 0 < x) by (apply Qlt_le_trans with (2 ^ k); [apply pow2_pos | exact H1]).
  destruct (ilog2_bounds x Hx) as [B1 B2].
  assert (ilog2 x < k + 1)%Z
    by (apply pow2_lt_inv; apply Qle_lt_trans with x; assumption).
  assert (k < ilog2 x + 1)%Z
    by (apply pow2_lt_inv; apply Qle_lt_trans with x; assumption).
  lia.
Qed.

Lemma ilog2_compat (x y : Q) : x == y -> 0 < x -> ilog2 x = ilog2 y.
Proof.
  intros E Hx. destruct (ilog2_bounds x Hx) as [B1 B2].
  symmetry. apply ilog2_unique; rewrite <- E; assumption.
Qed.

Lemma ilog2_mono (x y : Q) : 0 < x -> x <= y -> (ilog2 x <= ilog2 y)%Z.
Proof.
  intros Hx Hxy.
  assert (Hy : 0 < y) by (apply Qlt_le_trans with x; assumption).
  destruct (ilog2_bounds x Hx) as [B1 _].
  destruct (ilog2_bounds y Hy) as [_ B2].
  assert (ilog2 x < ilog2 y + 1)%Z; [| lia].
  apply pow2_lt_inv. apply Qle_lt_trans with x; [exact B1 |].
  apply Qle_lt_trans with y; assumption.
Qed.

(** ** Rounding to the nearest integer *)

Lemma rne_compat (x y : Q) : x == y -> rne x = rne y.
Proof.
  intros E. unfold rne.
  assert (F : Qfloor x = Qfloor y) by (apply Qfloor_comp; exact E).
  rewrite F.
  assert (C : Qcompare (x - inject_Z (Qfloor y)) (1 # 2)
              = Qcompare (y - inject_Z (Qfloor y)) (1 # 2))
    by (apply Qcompare_comp; [rewrite E |]; reflexivity).
  rewrite C. reflexivity.
Qed.

Lemma rne_floor (x : Q) : rne x = Qfloor x \/ rne x = (Qfloor x + 1)%Z.
Proof.
  unfold rne. destruct (Qcompare _ _); [destruct (Z.even _) | |]; auto.
Qed.

Lemma rne_mono (x y : Q) : x <= y -> (rne x <= rne y)%Z.
Proof.
  intros Hxy. assert (F := Qfloor_resp_le x y Hxy).
  destruct (Z.eq_dec (Qfloor x) (Qfloor y)) as [E | N].
  - unfold rne. rewrite E.
    destruct (Qcompare_spec (x - inject_Z (Qfloor y)) (1 # 2)) as [X | X | X];
    destruct (Qcompare_spec (y - inject_Z (Qfloor y)) (1 # 2)) as [Y | Y | Y];
      try destruct (Z.even (Qfloor y)); try lia; exfalso; lra.
  - destruct (rne_floor x) as [-> | ->], (rne_floor y) as [-> | ->]; lia.
Qed.

Lemma rne_Z (z : Z) : rne (inject_Z z) = z.
Proof.
  unfold rne. rewrite Qfloor_Z.
  destruct (Qcompare_spec (inject_Z z - inject_Z z) (1 # 2)) as [X | X | X];
    [exfalso; lra | reflexivity | exfalso; lra].
Qed.

Lemma rne_opp (x : Q) : rne (- x) = (- rne x)%Z.
Proof.
  assert (Lx := Qfloor_le x). assert (Ux := Qlt_floor x).
  assert (Ln := Qfloor_le (- x)). assert (Un := Qlt_floor (- x)).
  rewrite inject_Z_plus in Ux, Un.
  change (inject_Z 1) with 1 in Ux, Un.
  destruct (Qeq_dec x (inject_Z (Qfloor x))) as [E | N].
  - rewrite (rne_compat x _ E), rne_Z.
    assert (E' : - x == inject_Z (- Qfloor x))
      by (rewrite inject_Z_opp, <- E; reflexivity).
    rewrite (rne_compat _ _ E'), rne_Z. reflexivity.
  - assert (F : Qfloor (- x) = (- Qfloor x - 1)%Z).
    { assert (inject_Z (Qfloor (- x)) < inject_Z (- Qfloor x)
              /\ inject_Z (- Qfloor x - 1 - 1) < inject_Z (Qfloor (- x))) as [A B].
      { unfold Zminus. rewrite !inject_Z_plus, !inject_Z_opp.
        change (inject_Z 1) with 1. split; [| lra].
        apply Qle_lt_trans with (- x); [exact Ln |].
        assert (inject_Z (Qfloor x) < x); [| lra].
        apply Qle_lt_or_eq in Lx. destruct Lx as [L | L]; [exact L |].
        exfalso. apply N. symmetry. exact L. }
      rewrite <- Zlt_Qlt in A, B. lia. }
    unfold rne. rewrite F.
    assert (G : - x - inject_Z (- Qfloor x - 1)
                == 1 - (x - inject_Z (Qfloor x))).
    { unfold Zminus. rewrite !inject_Z_plus, !inject_Z_opp.
      change (inject_Z 1) with 1. ring. }
    destruct (Qcompare_spec (x - inject_Z (Qfloor x)) (1 # 2)) as [X | X | X];
    destruct (Qcompare_spec (- x - inject_Z (- Qfloor x - 1)) (1 # 2))
      as [Y | Y | Y]; try (exfalso; lra); try lia.
    replace (- Qfloor x - 1)%Z with (- (Qfloor x + 1))%Z by lia.
    rewrite Z.even_opp.
    replace (Qfloor x + 1)%Z with (Z.succ (Qfloor x)) by lia.
    rewrite Z.even_succ, <- Z.negb_even.
    destruct (Z.even (Qfloor x)); simpl; lia.
Qed.

Lemma rne_le (x : Q) (m : Z) : x <= inject_Z m -> (rne x <= m)%Z.
Proof. intros H. rewrite <- (rne_Z m). apply rne_mono, H. Qed.

Lemma rne_ge (x : Q) (m : Z) : inject_Z m <= x -> (m <= rne x)%Z.
Proof. intros H. rewrite <- (rne_Z m) at 1. apply rne_mono, H. Qed.

(** ** Rounding to binary64 *)

Lemma Qabs_opp_eq (x : Q) : Qabs (- x) = Qabs x.
Proof. destruct x as [n d]. unfold Qabs, Qopp. cbn [Qnum Qden]. rewrite Z.abs_opp. reflexivity. Qed.

Lemma Qdiv_le_compat (x y c : Q) : 0 < c -> x <= y -> x / c <= y / c.
Proof.
  intros Hc H. unfold Qdiv. apply Qmult_le_compat_r; [exact H |].
  apply Qinv_le_0_compat, Qlt_le_weak, Hc.
Qed.

Lemma ulpExp_pos (x : Q) :
  0 < x -> ulpExp x = Z.max (ilog2 x - 52) (-1074).
Proof.
  intros Hx. unfold ulpExp.
  assert (E : Qabs x == x) by (apply Qabs_pos, Qlt_le_weak, Hx).
  rewrite (ilog2_compat (Qabs x) x E); [reflexivity |].
  rewrite E. exact Hx.
Qed.

Lemma ulpExp_compat (x y : Q) : x == y -> ~ x == 0 -> ulpExp x = ulpExp y.
Proof.
  intros E N. unfold ulpExp.
  rewrite (ilog2_compat (Qabs x) (Qabs y)); [reflexivity | rewrite E; reflexivity |].
  assert (H := Qabs_nonneg x). apply Qle_lt_or_eq in H.
  destruct H as [H | H]; [exact H |].
  exfalso. apply N. symmetry in H. revert H. apply Qabs_case; intros; lra.
Qed.

Lemma ulpExp_mono (x y : Q) : 0 < x -> x <= y -> (ulpExp x <= ulpExp y)%Z.
Proof.
  intros Hx Hxy.
  assert (Hy : 0 < y) by (apply Qlt_le_trans with x; assumption).
  rewrite (ulpExp_pos x Hx), (ulpExp_pos y Hy).
  assert (H := ilog2_mono x y Hx Hxy). lia.
Qed.

(** Below [2^53] units, and at least [2^52] of them above the
    subnormal range. *)
Lemma scaled_lt (x : Q) : 0 < x -> x / 2 ^ ulpExp x < 2 ^ 53.
Proof.
  intros Hx. apply Qlt_shift_div_r; [apply pow2_pos |].
  destruct (ilog2_bounds x Hx) as [_ B].
  apply Qlt_le_trans with (2 ^ (ilog2 x + 1)); [exact B |].
  rewrite <- pow2_add. apply pow2_le.
  rewrite (ulpExp_pos x Hx). lia.
Qed.

Lemma scaled_ge (x : Q) :
  0 < x -> (-1074 < ulpExp x)%Z -> 2 ^ 52 <= x / 2 ^ ulpExp x.
Proof.
  intros Hx He. apply Qle_shift_div_l; [apply pow2_pos |].
  destruct (ilog2_bounds x Hx) as [B _].
  rewrite <- pow2_add.
  rewrite (ulpExp_pos x Hx) in *.
  replace (52 + Z.max (ilog2 x - 52) (-1074))%Z with (ilog2 x) by lia.
  exact B.
Qed.

Lemma nearest64_0 (x : Q) : x == 0 -> nearest64 x == 0.
Proof.
  intros E. unfold nearest64.
  assert (E' : x / 2 ^ ulpExp x == inject_Z 0)
    by (generalize (2 ^ ulpExp x); intros c; rewrite E; unfold Qdiv; ring).
  rewrite (rne_compat _ _ E'), rne_Z. ring.
Qed.

Lemma nearest64_compat (x y : Q) : x == y -> nearest64 x == nearest64 y.
Proof.
  intros E. destruct (Qeq_dec x 0) as [Z | N].
  - rewrite (nearest64_0 x Z), (nearest64_0 y); [reflexivity |].
    rewrite <- E. exact Z.
  - unfold nearest64. rewrite <- (ulpExp_compat x y E N).
    assert (E' : x / 2 ^ ulpExp x == y / 2 ^ ulpExp x)
      by (generalize (2 ^ ulpExp x); intros c; rewrite E; reflexivity).
    rewrite (rne_compat _ _ E'). reflexivity.
Qed.

Lemma nearest64_opp (x : Q) : nearest64 (- x) == - nearest64 x.
Proof.
  unfold nearest64, ulpExp. rewrite Qabs_opp_eq.
  set (e := Z.max (ilog2 (Qabs x) - 52) (-1074)).
  assert (E : - x / 2 ^ e == - (x / 2 ^ e)) by (unfold Qdiv; ring).
  rewrite (rne_compat _ _ E), rne_opp, inject_Z_opp. ring.
Qed.

Lemma nearest64_mono_pos (x y : Q) :
  0 < x -> x <= y -> nearest64 x <= nearest64 y.
Proof.
  intros Hx Hxy.
  assert (Hy : 0 < y) by (apply Qlt_le_trans with x; assumption).
  assert (He := ulpExp_mono x y Hx Hxy).
  unfold nearest64.
  destruct (Z.eq_dec (ulpExp x) (ulpExp y)) as [E | N].
  - rewrite E. apply Qmult_le_compat_r; [| apply Qlt_le_weak, pow2_pos].
    rewrite <- Zle_Qle. apply rne_mono.
    apply Qdiv_le_compat; [apply pow2_pos | exact Hxy].
  - assert (Ux : inject_Z (rne (x / 2 ^ ulpExp x)) <= 2 ^ 53).
    { rewrite <- (pow2_Z 53) by lia. rewrite <- Zle_Qle. apply rne_le.
      rewrite (pow2_Z 53) by lia. apply Qlt_le_weak, scaled_lt, Hx. }
    assert (Ly : 2 ^ 52 <= inject_Z (rne (y / 2 ^ ulpExp y))).
    { rewrite <- (pow2_Z 52) by lia. rewrite <- Zle_Qle. apply rne_ge.
      rewrite (pow2_Z 52) by lia. apply scaled_ge; [exact Hy |].
      assert (-1074 <= ulpExp x)%Z
        by (rewrite (ulpExp_pos x Hx); apply Z.le_max_r).
      lia. }
    apply Qle_trans with (2 ^ 53 * 2 ^ ulpExp x).
    { apply Qmult_le_compat_r; [exact Ux | apply Qlt_le_weak, pow2_pos]. }
    apply Qle_trans with (2 ^ 52 * 2 ^ ulpExp y).
    { rewrite <- !pow2_add. apply pow2_le. lia. }
    apply Qmult_le_compat_r; [exact Ly | apply Qlt_le_weak, pow2_pos].
Qed.

Lemma nearest64_nonneg (x : Q) : 0 <= x -> 0 <= nearest64 x.
Proof.
  intros Hx. unfold nearest64.
  apply Qmult_le_0_compat; [| apply Qlt_le_weak, pow2_pos].
  change 0 with (inject_Z 0). rewrite <- Zle_Qle. apply rne_ge.
  apply Qle_shift_div_l; [apply pow2_pos |].
  change (inject_Z 0) with 0. lra.
Qed.

Lemma nearest64_nonpos (x : Q) : x <= 0 -> nearest64 x <= 0.
Proof.
  intros Hx. assert (H := nearest64_nonneg (- x) ltac:(lra)).
  rewrite nearest64_opp in H. lra.
Qed.

Lemma nearest64_mono (x y : Q) : x <= y -> nearest64 x <= nearest64 y.
Proof.
  intros Hxy. destruct (Qlt_le_dec 0 x) as [Hx | Hx].
  - apply nearest64_mono_pos; assumption.
  - destruct (Qlt_le_dec y 0) as [Hy | Hy].
    + assert (H : nearest64 (- y) <= nearest64 (- x))
        by (apply nearest64_mono_pos; lra).
      rewrite !nearest64_opp in H. lra.
    + apply Qle_trans with 0;
        [apply nearest64_nonpos | apply nearest64_nonneg]; assumption.
Qed.

(** [round64] without the test for zero. *)
Lemma round64_eq (x : Q) :
  round64 x =
  if Qle_bool (2 ^ 1024) (Qabs (Qred (nearest64 x)))
  then Inf (isNeg x) else Fin (Qred (nearest64 x)).
Proof.
  unfold round64. destruct (Qeq_bool x 0) eqn:E; [| reflexivity].
  apply Qeq_bool_iff in E.
  assert (R : Qred (nearest64 x) = 0).
  { change 0 with (Qred 0). apply Qred_complete, nearest64_0, E. }
  rewrite R. vm_compute. reflexivity.
Qed.

Lemma round64_compat (x y : Q) : x == y -> round64 x = round64 y.
Proof.
  intros E. rewrite !round64_eq.
  rewrite (Qred_complete _ _ (nearest64_compat x y E)).
  assert (N : isNeg x = isNeg y).
  { unfold isNeg. f_equal.
    destruct (Qle_bool 0 x) eqn:A, (Qle_bool 0 y) eqn:B; try reflexivity.
    - apply Qle_bool_iff in A. apply Qle_bool_false in B. exfalso; lra.
    - apply Qle_bool_iff in B. apply Qle_bool_false in A. exfalso; lra. }
  rewrite N. reflexivity.
Qed.

Lemma isNeg_true (x : Q) : isNeg x = true <-> x < 0.
Proof.
  unfold isNeg. rewrite negb_true_iff. split.
  - apply Qle_bool_false.
  - intros H. destruct (Qle_bool 0 x) eqn:E; [| reflexivity].
    apply Qle_bool_iff in E. exfalso; lra.
Qed.

Lemma isNeg_false (x : Q) : isNeg x = false <-> 0 <= x.
Proof.
  unfold isNeg. rewrite negb_false_iff. apply Qle_bool_iff.
Qed.

Lemma le_Inf_true (b : number) : b <> NaN -> le (Inf true) b = true.
Proof. destruct b as [| [] |]; intros H; try reflexivity. congruence. Qed.

Lemma le_Inf_false (a : number) : a <> NaN -> le a (Inf false) = true.
Proof. destruct a as [| [] |]; intros H; try reflexivity. congruence. Qed.

Lemma round64_not_NaN (x : Q) : round64 x <> NaN.
Proof. rewrite round64_eq. destruct (Qle_bool _ _); discriminate. Qed.

(** Rounding is monotone. *)
Lemma round64_mono (x y : Q) : x <= y -> le (round64 x) (round64 y) = true.
Proof.
  intros Hxy. assert (M := nearest64_mono x y Hxy).
  assert (Hp := pow2_pos 1024).
  rewrite !round64_eq. set (big := 2 ^ 1024) in *.
  assert (Rx := Qred_correct (nearest64 x)).
  assert (Ry := Qred_correct (nearest64 y)).
  destruct (Qle_bool big (Qabs (Qred (nearest64 x)))) eqn:Bx;
  destruct (Qle_bool big (Qabs (Qred (nearest64 y)))) eqn:By.
  - destruct (isNeg x) eqn:Nx; [apply le_Inf_true; discriminate |].
    destruct (isNeg y) eqn:Ny; [| reflexivity].
    apply isNeg_false in Nx. apply isNeg_true in Ny. exfalso; lra.
  - destruct (isNeg x) eqn:Nx; [reflexivity |].
    apply isNeg_false in Nx. apply nearest64_nonneg in Nx.
    apply Qle_bool_iff in Bx. apply Qle_bool_false in By.
    rewrite Rx in Bx. rewrite Ry in By. exfalso.
    revert Bx By. apply Qabs_case; apply Qabs_case; intros; lra.
  - destruct (isNeg y) eqn:Ny; [| apply le_Inf_false; discriminate].
    apply isNeg_true in Ny.
    assert (Hy := nearest64_nonpos y ltac:(lra)).
    apply Qle_bool_iff in By. apply Qle_bool_false in Bx.
    rewrite Rx in Bx. rewrite Ry in By. exfalso.
    revert Bx By. apply Qabs_case; apply Qabs_case; intros; lra.
  - apply le_Fin. rewrite Rx, Ry. exact M.
Qed.

(** ** Monotone operations on numbers *)

Lemma le_Fin_Q (p q : Q) : le (Fin p) (Fin q) = true -> p <= q.
Proof. apply le_Fin. Qed.

Lemma le_Inf_r (a : number) (s : bool) :
  le a (Inf s) = true -> s = false \/ a = Inf true.
Proof. destruct a as [| [] |], s; intros H; auto; discriminate H. Qed.

Lemma le_Inf_l (b : number) (s : bool) :
  le (Inf s) b = true -> s = true \/ b = Inf false.
Proof. destruct b as [| [] |], s; intros H; auto; discriminate H. Qed.

(** Division by a positive constant. *)
Lemma div_mono (c : Q) (a b : number) :
  0 < c -> le a b = true -> le (div a (Fin c)) (div b (Fin c)) = true.
Proof.
  intros Hc H.
  assert (Nc : isNeg c = false) by (apply isNeg_false; lra).
  assert (Zc : Qeq_bool c 0 = false).
  { destruct (Qeq_bool c 0) eqn:E; [| reflexivity].
    apply Qeq_bool_iff in E. exfalso; lra. }
  destruct a as [| s | p], b as [| s' | q]; try discriminate H;
    unfold div; rewrite ?Nc, ?Zc, ?xorb_false_r.
  - exact H.
  - apply le_Inf_l in H. destruct H as [-> | H]; [| discriminate H].
    apply le_Inf_true, round64_not_NaN.
  - apply le_Inf_r in H. destruct H as [-> | H]; [| discriminate H].
    apply le_Inf_false, round64_not_NaN.
  - apply round64_mono, Qdiv_le_compat; [exact Hc | apply le_Fin_Q, H].
Qed.

(** Multiplication by a positive constant. *)
Lemma mul_mono (c : Q) (a b : number) :
  0 < c -> le a b = true -> le (mul a (Fin c)) (mul b (Fin c)) = true.
Proof.
  intros Hc H.
  assert (Nc : isNeg c = false) by (apply isNeg_false; lra).
  assert (Zc : Qeq_bool c 0 = false).
  { destruct (Qeq_bool c 0) eqn:E; [| reflexivity].
    apply Qeq_bool_iff in E. exfalso; lra. }
  destruct a as [| s | p], b as [| s' | q]; try discriminate H;
    unfold mul; rewrite ?Nc, ?Zc, ?xorb_false_r.
  - exact H.
  - apply le_Inf_l in H. destruct H as [-> | H]; [| discriminate H].
    apply le_Inf_true, round64_not_NaN.
  - apply le_Inf_r in H. destruct H as [-> | H]; [| discriminate H].
    apply le_Inf_false, round64_not_NaN.
  - apply round64_mono, Qmult_le_compat_r; [apply le_Fin_Q, H | lra].
Qed.

Lemma lt_le_false (a b : number) : le a b = true -> lt b a = false.
Proof.
  destruct a as [| s | p], b as [| s' | q]; try discriminate.
  - destruct s, s'; intros H; try reflexivity; discriminate H.
  - destruct s; intros H; try reflexivity; discriminate H.
  - destruct s'; intros H; try reflexivity; discriminate H.
  - intros H. apply le_Fin_Q in H. cbn [lt]. apply negb_false_iff.
    apply Qle_bool_iff, H.
Qed.

Lemma le_refl (a : number) : a <> NaN -> le a a = true.
Proof.
  destruct a as [| [] | q]; intros H; try reflexivity; [congruence |].
  apply le_Fin, Qle_refl.
Qed.

Lemma le_trans (a b c : number) :
  le a b = true -> le b c = true -> le a c = true.
Proof.
  destruct a as [| s | p], b as [| s' | q], c as [| s'' | r];
    try discriminate; intros H1 H2.
  - destruct s, s', s''; try reflexivity; discriminate.
  - destruct s, s'; try reflexivity; discriminate.
  - destruct s, s''; try reflexivity; discriminate.
  - destruct s; try reflexivity; discriminate.
  - destruct s', s''; try reflexivity; discriminate.
  - destruct s'; try reflexivity; discriminate.
  - destruct s''; try reflexivity; discriminate.
  - apply le_Fin. apply le_Fin_Q in H1, H2. lra.
Qed.

Lemma lt_le (a b : number) : lt a b = true -> le a b = true.
Proof. unfold le. intros ->. reflexivity. Qed.

Lemma Math_min_mono (h a b : number) :
  h <> NaN -> le a b = true -> le (Math_min h a) (Math_min h b) = true.
Proof.
  intros Hh H. destruct (le_not_NaN _ _ H) as [Ha Hb].
  assert (Ea : Math_min h a = if lt a h then a else h)
    by (destruct h, a; congruence || reflexivity).
  assert (Eb : Math_min h b = if lt b h then b else h)
    by (destruct h, b; congruence || reflexivity).
  rewrite Ea, Eb.
  destruct (lt a h) eqn:A, (lt b h) eqn:B.
  - exact H.
  - apply lt_le, A.
  - apply le_trans with a; [| exact H].
    apply lt_false_le; assumption.
  - apply le_refl, Hh.
Qed.

Lemma Math_max_mono (l a b : number) :
  l <> NaN -> le a b = true -> le (Math_max l a) (Math_max l b) = true.
Proof.
  intros Hl H. destruct (le_not_NaN _ _ H) as [Ha Hb].
  assert (Ea : Math_max l a = if lt l a then a else l)
    by (destruct l, a; congruence || reflexivity).
  assert (Eb : Math_max l b = if lt l b then b else l)
    by (destruct l, b; congruence || reflexivity).
  rewrite Ea, Eb.
  destruct (lt l a) eqn:A, (lt l b) eqn:B.
  - exact H.
  - apply le_trans with b; [exact H |].
    apply lt_false_le; assumption.
  - apply lt_le, B.
  - apply le_refl, Hl.
Qed.

Lemma clamp_mono (lo hi a b : number) :
  lo <> NaN -> hi <> NaN -> le a b = true ->
  le (clamp a lo hi) (clamp b lo hi) = true.
Proof.
  intros Hlo Hhi H. unfold clamp.
  apply Math_max_mono; [exact Hlo |]. apply Math_min_mono; assumption.
Qed.

(** A clamped number is finite. *)
Lemma clamp_Fin (lo hi : Q) (a : number) :
  a <> NaN -> exists q, clamp a (Fin lo) (Fin hi) = Fin q.
Proof.
  intros Ha. unfold clamp.
  destruct a as [| [] | p]; [congruence | | |]; cbn [Math_min lt negb].
  - destruct (lt (Fin lo) (Inf true)) eqn:E; [discriminate E |].
    cbn [Math_max]. rewrite E. eexists; reflexivity.
  - cbn [Math_max]. destruct (lt (Fin lo) (Fin hi)); eexists; reflexivity.
  - destruct (negb (Qle_bool hi p)); cbn [Math_max];
      match goal with |- context [lt ?x ?y] => destruct (lt x y) end;
      eexists; reflexivity.
Qed.

Lemma add_mono_Fin (a a' : number) (q q' : Q) :
  le a a' = true -> q <= q' ->
  le (add a (Fin q)) (add a' (Fin q')) = true.
Proof.
  intros H Hq. destruct a as [| s | p], a' as [| s' | p'];
    try discriminate H; unfold add.
  - exact H.
  - apply le_Inf_l in H. destruct H as [-> | H]; [| discriminate H].
    apply le_Inf_true, round64_not_NaN.
  - apply le_Inf_r in H. destruct H as [-> | H]; [| discriminate H].
    apply le_Inf_false, round64_not_NaN.
  - apply round64_mono. apply le_Fin_Q in H. lra.
Qed.

(** Subtraction from a constant turns the order around. *)
Lemma sub_anti (c : Q) (a b : number) :
  le a b = true -> le (sub (Fin c) b) (sub (Fin c) a) = true.
Proof.
  intros H. destruct a as [| s | p], b as [| s' | q];
    try discriminate H; unfold sub, neg, add.
  - destruct s, s'; try reflexivity; discriminate H.
  - apply le_Inf_l in H. destruct H as [-> | H]; [| discriminate H].
    apply le_Inf_false, round64_not_NaN.
  - apply le_Inf_r in H. destruct H as [-> | H]; [| discriminate H].
    apply le_Inf_true, round64_not_NaN.
  - apply round64_mono. apply le_Fin_Q in H.
    rewrite !Qred_correct. lra.
Qed.

Lemma Math_round_mono (a b : number) :
  le a b = true -> le (Math_round a) (Math_round b) = true.
Proof.
  intros H. destruct a as [| s | p], b as [| s' | q];
    try discriminate H; try exact H.
  cbn [Math_round]. apply le_Fin. rewrite <- Zle_Qle.
  apply Qfloor_resp_le. apply le_Fin_Q in H. lra.
Qed.

Close Scope Q_scope.

(** ** The percentage difference *)

Open Scope Q_scope.

Lemma Qred_idem (q : Q) : Qred (Qred q) = Qred q.
Proof. apply Qred_complete, Qred_correct. Qed.

Lemma isNeg_opp (x : Q) : ~ x == 0 -> isNeg (- x) = negb (isNeg x).
Proof.
  intros N. destruct (isNeg x) eqn:E; cbn [negb].
  - apply isNeg_true in E. apply isNeg_false. lra.
  - apply isNeg_false in E. apply isNeg_true.
    destruct (Qlt_le_dec (- x) 0) as [H | H]; [exact H |].
    exfalso. apply N. lra.
Qed.

(** Rounding is symmetric. *)
Lemma round64_opp (x : Q) : round64 (- x) = neg (round64 x).
Proof.
  rewrite !round64_eq.
  assert (R : Qred (nearest64 (- x)) = - Qred (nearest64 x)).
  { rewrite <- Qred_opp. apply Qred_complete, nearest64_opp. }
  rewrite R, Qabs_opp_eq.
  destruct (Qle_bool (2 ^ 1024) (Qabs (Qred (nearest64 x)))) eqn:B;
    cbn [neg].
  - f_equal. apply isNeg_opp. intros Z.
    apply Qle_bool_iff in B.
    rewrite (Qred_complete _ _ (nearest64_0 x Z)) in B.
    revert B. vm_compute. intros B. apply B. reflexivity.
  - rewrite Qred_opp, Qred_idem. reflexivity.
Qed.

Lemma Qabs_nonneg_eq (q : Q) : 0 <= q -> Qabs q = q.
Proof.
  destruct q as [n d]. unfold Qle. cbn [Qnum Qden]. intros H.
  unfold Qabs. rewrite Z.abs_eq by lia. reflexivity.
Qed.

Lemma round64_abs (x : Q) : round64 (Qabs x) = Math_abs (round64 x).
Proof.
  assert (P : forall y, 0 <= y -> Math_abs (round64 y) = round64 y).
  { intros y Hy. rewrite round64_eq.
    destruct (Qle_bool _ _).
    - cbn [Math_abs]. f_equal. symmetry. apply isNeg_false, Hy.
    - cbn [Math_abs]. rewrite Qabs_nonneg_eq, Qred_idem; [reflexivity |].
      rewrite Qred_correct. apply nearest64_nonneg, Hy. }
  assert (A : forall a, Math_abs (neg a) = Math_abs a).
  { intros [| s | q]; try reflexivity. cbn [neg Math_abs]. f_equal.
    apply Qred_complete. rewrite Qred_correct. apply Qabs_opp. }
  destruct (Qlt_le_dec x 0) as [H | H].
  - assert (E : Qabs x == - x) by (apply Qabs_neg; lra).
    rewrite (round64_compat _ _ E).
    rewrite <- (P (- x)) by lra. rewrite round64_opp. apply A.
  - rewrite (Qabs_nonneg_eq x H). symmetry. apply P, H.
Qed.

Lemma Qeq_bool_compat (x y : Q) : x == y -> Qeq_bool x 0 = Qeq_bool y 0.
Proof.
  intros E. destruct (Qeq_bool x 0) eqn:A, (Qeq_bool y 0) eqn:B;
    try reflexivity.
  - apply Qeq_bool_iff in A. apply Qeq_bool_neq in B. exfalso.
    apply B. rewrite <- E. exact A.
  - apply Qeq_bool_iff in B. apply Qeq_bool_neq in A. exfalso.
    apply A. rewrite E. exact B.
Qed.

(** Where the difference as the specification writes it exceeds the
    limit, it is the difference that [pctDiff] computes. *)
Lemma pctOfOem_pctDiff (a b : number) :
  gt (pctOfOem a b) (ofZ 3) = true -> pctDiff a b = pctOfOem a b.
Proof.
  unfold pctOfOem, pctDiff.
  destruct (sub b a) as [| s | p]; [discriminate | |].
  - destruct a as [| s' | q]; try discriminate.
    cbn [Math_abs div]. destruct (isNeg q); [discriminate |].
    rewrite xorb_false_r. intros _. reflexivity.
  - destruct a as [| s' | q]; [discriminate | |].
    + cbn [Math_abs div]. intros H. exfalso. revert H.
      vm_compute. discriminate.
    + cbn [Math_abs div].
      destruct (Qeq_bool q 0) eqn:Zq.
      * rewrite (Qeq_bool_compat (Qred (Qabs p)) (Qabs p))
          by apply Qred_correct.
        assert (E0 : Qeq_bool (Qabs p) 0 = Qeq_bool p 0).
        { destruct (Qeq_bool p 0) eqn:Zp.
          - apply Qeq_bool_iff in Zp. apply Qeq_bool_iff.
            rewrite Zp. reflexivity.
          - apply Qeq_bool_neq in Zp.
            destruct (Qeq_bool (Qabs p) 0) eqn:Za; [| reflexivity].
            apply Qeq_bool_iff in Za. exfalso. apply Zp.
            revert Za. apply Qabs_case; intros; lra. }
        rewrite E0. destruct (Qeq_bool p 0); [discriminate |].
        cbn [Math_abs]. intros _. f_equal. f_equal.
        symmetry. apply isNeg_false.
        rewrite Qred_correct. apply Qabs_nonneg.
      * apply Qeq_bool_neq in Zq.
        destruct (Qlt_le_dec 0 q) as [Hq | Hq].
        -- intros _. f_equal. rewrite <- round64_abs.
           apply round64_compat.
           rewrite Qred_correct. unfold Qdiv.
           rewrite Qabs_Qmult, Qabs_Qinv.
           rewrite (Qabs_pos q) by lra. reflexivity.
        -- intros H. exfalso.
           assert (Hq' : q < 0).
           { destruct (Qlt_le_dec q 0) as [L | L]; [exact L |].
             exfalso. apply Zq. lra. }
           assert (L : Qred (Qabs p) / q <= 0).
           { rewrite Qred_correct.
             assert (E : Qabs p / q == - (Qabs p / - q)) by (field; lra).
             assert (G : 0 <= Qabs p / - q).
             { apply Qle_shift_div_l; [lra |].
               assert (Ap := Qabs_nonneg p). lra. }
             lra. }
           assert (M := mul_mono 100 _ _ eq_refl (round64_mono _ _ L)).
           change (round64 0) with (Fin 0) in M.
           change (mul (Fin 0) (Fin 100)) with (round64 (0 * 100)) in M.
           assert (T : le (round64 (0 * 100)) (ofZ 3) = true)
             by (vm_compute; reflexivity).
           assert (C := lt_le_false _ _ (le_trans _ _ _ M T)).
           unfold gt in H. change (ofZ 100) with (Fin 100) in H.
           rewrite C in H. discriminate H.
Qed.

Close Scope Q_scope.

(** * Scoring *)

(** ** Scoring gates *)

(** C3. When the rim of the candidate differs from the rim of the OEM
    size, the candidate is rejected with score 0, whatever the other
    deltas are. *)
Theorem rim_mismatch_rejected (oem alt : Tyre) :
  strictEq (rimIn alt) (rimIn oem) = false ->
  safe (scoreAlternative oem alt) = false /\
  score (scoreAlternative oem alt) = ofZ 0.
Proof.
  intros Hrim. unfold scoreAlternative.
  destruct (gt _ _); [split; reflexivity |].
  rewrite Hrim. split; reflexivity.
Qed.

(** The rim gate at 265/30 R20 against 265/25 R21, whose diameter is
    within the limit. *)
Lemma rim_mismatch_rejected_witness :
  gt (diaDelta (mkTyre 265 30 20) (mkTyre 265 25 21)) (diameterPctMax LIMITS)
    = false /\
  safe (scoreAlternative (mkTyre 265 30 20) (mkTyre 265 25 21)) = false /\
  score (scoreAlternative (mkTyre 265 30 20) (mkTyre 265 25 21)) = ofZ 0.
Proof.
  split; [vm_compute; reflexivity |].
  apply (rim_mismatch_rejected (mkTyre 265 30 20) (mkTyre 265 25 21)).
  vm_compute; reflexivity.
Defined.

(** C4. When the diameter delta exceeds the limit of 3.0, the candidate
    is rejected with score 0 and the one reason cites the delta and the
    limit. The delta is the one [pctDiff] computes, or the difference
    as the specification writes it, |altDia - oemDia| / oemDia * 100.
    Nothing is assumed on the rim or on the width: the diameter gate
    comes first. *)
Theorem diameter_gate_rejects (oem alt : Tyre) :
  gt (diaDelta oem alt) (ofZ 3) = true \/
  gt (pctOfOem (overallDiameterMm oem) (overallDiameterMm alt)) (ofZ 3)
    = true ->
  scoreAlternative oem alt =
    {| safe := false; score := ofZ 0;
       reasons := ["Diameter Δ " ++ toFixed 2 (diaDelta oem alt)
                   ++ "% (limit 3%)"] |}.
Proof.
  intros H.
  assert (Hdia : gt (diaDelta oem alt) (ofZ 3) = true).
  { destruct H as [H | H]; [exact H |].
    unfold diaDelta. rewrite (pctOfOem_pctDiff _ _ H). exact H. }
  unfold scoreAlternative.
  change (pctDiff (overallDiameterMm oem) (overallDiameterMm alt))
    with (diaDelta oem alt).
  change (diameterPctMax LIMITS) with (ofZ 3).
  rewrite Hdia. reflexivity.
Qed.

(** The diameter gate at 265/30 R20 against 295/35 R21, where the rim
    and the width are out of bounds as well. *)
Lemma diameter_gate_rejects_witness :
  strictEq (rimIn (mkTyre 295 35 21)) (rimIn (mkTyre 265 30 20)) = false /\
  gt (widthDelta (mkTyre 265 30 20) (mkTyre 295 35 21)) (widthDeltaMaxMm LIMITS)
    = true /\
  scoreAlternative (mkTyre 265 30 20) (mkTyre 295 35 21) =
    {| safe := false; score := ofZ 0;
       reasons := ["Diameter Δ 10.93% (limit 3%)"] |}.
Proof.
  split; [vm_compute; reflexivity |].
  split; [vm_compute; reflexivity |].
  rewrite (diameter_gate_rejects (mkTyre 265 30 20) (mkTyre 295 35 21));
    [| right]; vm_compute; reflexivity.
Defined.

(** C7. For OEM 265/30 R20 the candidate 255/35 R20 passes the three
    gates; its width delta is 10, its aspect delta is 5, the overall
    diameters are 667 and 686.5, and the diameter delta is
    |686.5 - 667| / 667 * 100, the binary64 value nearest to 1950/667. *)
Theorem example_255_35_R20 :
  exists oem alt,
    parseTyreSize "265/30 R20" = Some oem /\
    parseTyreSize "255/35 R20" = Some alt /\
    safe (scoreAlternative oem alt) = true /\
    reasons (scoreAlternative oem alt) =
      ["Diameter Δ 2.92%"; "Width Δ 10mm"; "Aspect Δ 5"] /\
    widthDelta oem alt = ofZ 10 /\
    aspectDelta oem alt = ofZ 5 /\
    overallDiameterMm oem = ofZ 667 /\
    overallDiameterMm alt = Fin (1373 # 2) /\
    diaDelta oem alt =
      mul (div (Math_abs (sub (Fin (1373 # 2)) (ofZ 667))) (ofZ 667))
          (ofZ 100) /\
    diaDelta oem alt = round64 (1950 # 667).
Proof.
  exists (mkTyre 265 30 20), (mkTyre 255 35 20).
  repeat split; vm_compute; reflexivity.
Qed.

(** C8, as the code has it.  A candidate that passes the three gates
    carries the three measured deltas, in this order.  A rejected
    candidate carries one reason, that of the gate that rejected it, the
    gates being tried in the order diameter, rim, width: the diameter
    gate cites the diameter delta to two decimals and the limit of 3 %,
    the rim gate says that the rim size differs from the OEM one, the
    width gate cites the width delta and the limit of 25 mm.  Each gate
    condition in turn fixes the outcome and the reason. *)
Theorem reasons_by_outcome (oem alt : Tyre) :
  (safe (scoreAlternative oem alt) = true ->
   reasons (scoreAlternative oem alt) = deltaReasons oem alt) /\
  (safe (scoreAlternative oem alt) = false ->
   (gt (diaDelta oem alt) (ofZ 3) = true /\
    reasons (scoreAlternative oem alt) =
      ["Diameter Δ " ++ toFixed 2 (diaDelta oem alt) ++ "% (limit 3%)"]) \/
   (gt (diaDelta oem alt) (ofZ 3) = false /\
    strictEq (rimIn alt) (rimIn oem) = false /\
    reasons (scoreAlternative oem alt) = ["Rim size differs from OEM"]) \/
   (gt (diaDelta oem alt) (ofZ 3) = false /\
    strictEq (rimIn alt) (rimIn oem) = true /\
    gt (widthDelta oem alt) (ofZ 25) = true /\
    reasons (scoreAlternative oem alt) =
      ["Width Δ " ++ toString (widthDelta oem alt) ++ "mm (limit ±25mm)"])) /\
  (gt (diaDelta oem alt) (ofZ 3) = true ->
   safe (scoreAlternative oem alt) = false /\
   reasons (scoreAlternative oem alt) =
     ["Diameter Δ " ++ toFixed 2 (diaDelta oem alt) ++ "% (limit 3%)"]) /\
  (gt (diaDelta oem alt) (ofZ 3) = false ->
   strictEq (rimIn alt) (rimIn oem) = false ->
   safe (scoreAlternative oem alt) = false /\
   reasons (scoreAlternative oem alt) = ["Rim size differs from OEM"]) /\
  (gt (diaDelta oem alt) (ofZ 3) = false ->
   strictEq (rimIn alt) (rimIn oem) = true ->
   gt (widthDelta oem alt) (ofZ 25) = true ->
   safe (scoreAlternative oem alt) = false /\
   reasons (scoreAlternative oem alt) =
     ["Width Δ " ++ toString (widthDelta oem alt) ++ "mm (limit ±25mm)"]) /\
  (gt (diaDelta oem alt) (ofZ 3) = false ->
   strictEq (rimIn alt) (rimIn oem) = true ->
   gt (widthDelta oem alt) (ofZ 25) = false ->
   safe (scoreAlternative oem alt) = true).
Proof.
  unfold scoreAlternative, deltaReasons.
  fold (diaDelta oem alt). fold (widthDelta oem alt).
  fold (aspectDelta oem alt).
  change (diameterPctMax LIMITS) with (ofZ 3).
  change (widthDeltaMaxMm LIMITS) with (ofZ 25).
  change (toString (ofZ 3)) with "3".
  change (toString (ofZ 25)) with "25".
  destruct (gt (diaDelta oem alt) (ofZ 3)).
  - repeat split; intros; try discriminate; try reflexivity.
    left. split; reflexivity.
  - destruct (strictEq (rimIn alt) (rimIn oem)); cbn [negb].
    + cbv zeta. destruct (gt (widthDelta oem alt) (ofZ 25)).
      * repeat split; intros; try discriminate; try reflexivity.
        right. right. repeat split; reflexivity.
      * repeat split; intros; try discriminate; reflexivity.
    + repeat split; intros; try discriminate; try reflexivity.
      right. left. repeat split; reflexivity.
Qed.

Lemma reasons_by_outcome_witness :
  reasons (scoreAlternative (mkTyre 265 30 20) (mkTyre 255 35 20)) =
    ["Diameter Δ 2.92%"; "Width Δ 10mm"; "Aspect Δ 5"] /\
  reasons (scoreAlternative (mkTyre 265 30 20) (mkTyre 295 35 21)) =
    ["Diameter Δ 10.93% (limit 3%)"] /\
  reasons (scoreAlternative (mkTyre 265 30 20) (mkTyre 265 25 21)) =
    ["Rim size differs from OEM"] /\
  reasons (scoreAlternative (mkTyre 265 30 20) (mkTyre 295 27 20)) =
    ["Width Δ 30mm (limit ±25mm)"].
Proof.
  split; [| split; [| split]].
  - rewrite (proj1 (reasons_by_outcome (mkTyre 265 30 20) (mkTyre 255 35 20)));
      vm_compute; reflexivity.
  - destruct (reasons_by_outcome (mkTyre 265 30 20) (mkTyre 295 35 21))
      as (_ & _ & G & _).
    rewrite (proj2 (G ltac:(vm_compute; reflexivity))).
    vm_compute; reflexivity.
  - destruct (reasons_by_outcome (mkTyre 265 30 20) (mkTyre 265 25 21))
      as (_ & _ & _ & G & _).
    apply G; vm_compute; reflexivity.
  - destruct (reasons_by_outcome (mkTyre 265 30 20) (mkTyre 295 27 20))
      as (_ & _ & _ & _ & G & _).
    rewrite (proj2 (G ltac:(vm_compute; reflexivity)
                      ltac:(vm_compute; reflexivity)
                      ltac:(vm_compute; reflexivity))).
    vm_compute; reflexivity.
Defined.

(** C8 as stated fails: a candidate rejected by the rim gate carries the
    single reason of that gate and none of the three deltas. *)
Lemma rejected_reasons_lack_deltas :
  reasons (scoreAlternative (mkTyre 265 30 20) (mkTyre 265 25 21)) =
    ["Rim size differs from OEM"] /\
  ~ reportsDeltas (mkTyre 265 30 20) (mkTyre 265 25 21)
      (reasons (scoreAlternative (mkTyre 265 30 20) (mkTyre 265 25 21))).
Proof.
  assert (E : reasons (scoreAlternative (mkTyre 265 30 20) (mkTyre 265 25 21))
              = ["Rim size differs from OEM"]) by (vm_compute; reflexivity).
  split; [exact E |].
  rewrite E. intros [[r [[<- | []] Hpre]] _].
  vm_compute in Hpre. discriminate.
Qed.

(** ** The weighted score *)

Open Scope Q_scope.

(** What a candidate that passes the gates has gone through. *)
Lemma passing_inv (oem alt : Tyre) :
  safe (scoreAlternative oem alt) = true ->
  gt (diaDelta oem alt) (diameterPctMax LIMITS) = false /\
  strictEq (rimIn alt) (rimIn oem) = true /\
  gt (widthDelta oem alt) (widthDeltaMaxMm LIMITS) = false /\
  score (scoreAlternative oem alt)
  = weightedScore (diaDelta oem alt) (widthDelta oem alt)
      (aspectDelta oem alt).
Proof.
  unfold scoreAlternative.
  fold (diaDelta oem alt). fold (widthDelta oem alt).
  fold (aspectDelta oem alt).
  destruct (gt (diaDelta oem alt) _) eqn:G1; [discriminate |].
  destruct (strictEq (rimIn alt) (rimIn oem)) eqn:G2; [| discriminate].
  cbn [negb]. cbv zeta.
  destruct (gt (widthDelta oem alt) _) eqn:G3; [discriminate |].
  intros _. repeat split.
Qed.

Lemma penalty_mono (l w : Q) (x y : number) :
  0 < l -> 0 < w -> le x y = true ->
  le (penalty x (Fin l) (Fin w)) (penalty y (Fin l) (Fin w)) = true.
Proof.
  intros Hl Hw H. unfold penalty.
  apply clamp_mono; [discriminate | discriminate |].
  apply mul_mono; [exact Hw |]. apply div_mono; [exact Hl | exact H].
Qed.

Lemma penalty_Fin (l w : Q) (x : number) :
  0 < l -> 0 < w -> x <> NaN -> exists q, penalty x (Fin l) (Fin w) = Fin q.
Proof.
  intros Hl Hw Hx. unfold penalty. apply clamp_Fin.
  assert (H := mul_mono w _ _ Hw (div_mono l x x Hl (le_refl x Hx))).
  apply le_not_NaN in H. apply H.
Qed.

Lemma weightedScore_mono (d w a d' w' a' : number) :
  le d d' = true -> le w w' = true -> le a a' = true ->
  le (weightedScore d' w' a') (weightedScore d w a) = true.
Proof.
  intros Hd Hw Ha. unfold weightedScore.
  change (diameterPctMax LIMITS) with (Fin 3).
  change (widthDeltaMaxMm LIMITS) with (Fin 25).
  change (aspectDeltaMaxForFullPenalty LIMITS) with (Fin 10).
  change (ofZ 55) with (Fin 55). change (ofZ 25) with (Fin 25).
  change (ofZ 20) with (Fin 20). change (ofZ 100) with (Fin 100).
  assert (Pd := penalty_mono 3 55 d d' eq_refl eq_refl Hd).
  assert (Pw := penalty_mono 25 25 w w' eq_refl eq_refl Hw).
  assert (Pa := penalty_mono 10 20 a a' eq_refl eq_refl Ha).
  destruct (le_not_NaN _ _ Hw) as [Nw Nw'].
  destruct (le_not_NaN _ _ Ha) as [Na Na'].
  destruct (penalty_Fin 25 25 w eq_refl eq_refl Nw) as [pw Ew].
  destruct (penalty_Fin 25 25 w' eq_refl eq_refl Nw') as [pw' Ew'].
  destruct (penalty_Fin 10 20 a eq_refl eq_refl Na) as [pa Ea].
  destruct (penalty_Fin 10 20 a' eq_refl eq_refl Na') as [pa' Ea'].
  rewrite Ew, Ew', Ea, Ea' in *.
  apply clamp_mono; [discriminate | discriminate |].
  apply Math_round_mono, sub_anti.
  apply add_mono_Fin; [| apply le_Fin_Q, Pa].
  apply add_mono_Fin; [exact Pd | apply le_Fin_Q, Pw].
Qed.

(** C6.  Among candidates that pass the gates, a candidate whose three
    measured deltas are each at least those of another scores at most as
    much.  With two of the deltas the same, the score does not increase
    as the third delta increases. *)
Theorem score_monotone (oem1 alt1 oem2 alt2 : Tyre) :
  safe (scoreAlternative oem1 alt1) = true ->
  safe (scoreAlternative oem2 alt2) = true ->
  le (diaDelta oem1 alt1) (diaDelta oem2 alt2) = true ->
  le (widthDelta oem1 alt1) (widthDelta oem2 alt2) = true ->
  le (aspectDelta oem1 alt1) (aspectDelta oem2 alt2) = true ->
  le (score (scoreAlternative oem2 alt2)) (score (scoreAlternative oem1 alt1))
  = true.
Proof.
  intros S1 S2 Hd Hw Ha.
  destruct (passing_inv oem1 alt1 S1) as (_ & _ & _ & ->).
  destruct (passing_inv oem2 alt2 S2) as (_ & _ & _ & ->).
  apply weightedScore_mono; assumption.
Qed.

(** The diameter delta grows from 265/30 R20 against 275/30 R20 to
    265/35 R20 against 275/35 R20, the width delta stays at 10 and the
    aspect delta at 0: the score goes from 74 down to 71. *)
Lemma score_monotone_witness :
  widthDelta (mkTyre 265 30 20) (mkTyre 275 30 20)
    = widthDelta (mkTyre 265 35 20) (mkTyre 275 35 20) /\
  aspectDelta (mkTyre 265 30 20) (mkTyre 275 30 20)
    = aspectDelta (mkTyre 265 35 20) (mkTyre 275 35 20) /\
  le (score (scoreAlternative (mkTyre 265 35 20) (mkTyre 275 35 20)))
     (score (scoreAlternative (mkTyre 265 30 20) (mkTyre 275 30 20))) = true.
Proof.
  split; [vm_compute; reflexivity |].
  split; [vm_compute; reflexivity |].
  apply (score_monotone (mkTyre 265 30 20) (mkTyre 275 30 20)
           (mkTyre 265 35 20) (mkTyre 275 35 20));
    vm_compute; reflexivity.
Defined.

Close Scope Q_scope.

(** ** Sorting *)

Section SortFacts.
Context {A : Type} (cmp : A -> A -> number) (key : A -> Z) (P : A -> Prop).
Hypothesis cmp_key :
  forall a b, P a -> P b -> gt (cmp a b) (ofZ 0) = (key a <? key b)%Z.

Lemma insertSorted_perm (a : A) (l : list A) :
  Permutation (insertSorted cmp a l) (a :: l).
Proof.
  induction l as [| b l IH]; cbn [insertSorted]; [apply Permutation_refl |].
  destruct (gt (cmp a b) (ofZ 0)); [| apply Permutation_refl].
  apply Permutation_trans with (b :: a :: l).
  - apply perm_skip, IH.
  - apply perm_swap.
Qed.

Lemma sort_perm (l : list A) : Permutation (sort cmp l) l.
Proof.
  induction l as [| a l IH]; cbn [sort]; [apply Permutation_refl |].
  apply Permutation_trans with (a :: sort cmp l).
  - apply insertSorted_perm.
  - apply perm_skip, IH.
Qed.

Lemma sort_Forall (l : list A) : Forall P l -> Forall P (sort cmp l).
Proof.
  intros H. apply Forall_forall. intros x Hx.
  rewrite Forall_forall in H. apply H.
  apply (Permutation_in x (sort_perm l) Hx).
Qed.

Lemma insertSorted_sorted (a : A) (l : list A) :
  P a -> Forall P l ->
  StronglySorted (keyDesc key) l -> StronglySorted (keyDesc key) (insertSorted cmp a l).
Proof.
  intros Pa Pl Hs. induction Hs as [| b l Hs IH Hb]; cbn [insertSorted].
  - constructor; constructor.
  - inversion Pl as [| ? ? Pb Pl']; subst.
    rewrite (cmp_key a b Pa Pb).
    destruct (key a <? key b)%Z eqn:E.
    + apply Z.ltb_lt in E. constructor; [apply IH; exact Pl' |].
      apply Forall_forall. intros x Hx.
      apply (Permutation_in x (insertSorted_perm a l)) in Hx.
      destruct Hx as [<- | Hx].
      * unfold keyDesc. lia.
      * rewrite Forall_forall in Hb. apply Hb; exact Hx.
    + apply Z.ltb_ge in E. constructor.
      * constructor; assumption.
      * constructor; [exact E |].
        apply Forall_forall. intros x Hx.
        rewrite Forall_forall in Hb. specialize (Hb x Hx).
        unfold keyDesc in *. lia.
Qed.

Lemma sort_sorted (l : list A) :
  Forall P l -> StronglySorted (keyDesc key) (sort cmp l).
Proof.
  induction l as [| a l IH]; cbn [sort]; intros H; [constructor |].
  inversion H as [| ? ? Pa Pl]; subst.
  apply insertSorted_sorted; [exact Pa | apply sort_Forall; exact Pl |].
  apply IH; exact Pl.
Qed.



End SortFacts.

(** ** Scores are integers from 0 to 100 *)

Lemma clamp_NaN (lo hi : number) : clamp NaN lo hi = NaN.
Proof. unfold clamp. destruct lo, hi; reflexivity. Qed.

Lemma add_NaN_r (a : number) : add a NaN = NaN.
Proof. destruct a; reflexivity. Qed.

Lemma lt_ofZ (a b : Z) : lt (ofZ a) (ofZ b) = (a <? b)%Z.
Proof.
  unfold ofZ. cbn [lt].
  destruct (a <? b)%Z eqn:E.
  - apply Z.ltb_lt in E. apply negb_true_iff.
    destruct (Qle_bool (inject_Z b) (inject_Z a)) eqn:F; [| reflexivity].
    apply Qle_bool_iff in F. rewrite <- Zle_Qle in F. lia.
  - apply Z.ltb_ge in E. apply negb_false_iff, Qle_bool_iff.
    rewrite <- Zle_Qle. exact E.
Qed.

Lemma clamp_round_int (x : number) :
  clamp (Math_round x) (ofZ 0) (ofZ 100) = NaN \/
  exists k : Z, (0 <= k <= 100)%Z /\
    clamp (Math_round x) (ofZ 0) (ofZ 100) = ofZ k.
Proof.
  destruct x as [| [] | q].
  - left. reflexivity.
  - right. exists 0%Z. split; [lia | reflexivity].
  - right. exists 100%Z. split; [lia | reflexivity].
  - right. cbn [Math_round]. set (z := Qfloor (q + (1 # 2))).
    change (Fin (inject_Z z)) with (ofZ z).
    unfold clamp, Math_min, Math_max, ofZ. fold (ofZ z). fold (ofZ 100).
    fold (ofZ 0). rewrite lt_ofZ.
    destruct (z <? 100)%Z eqn:A.
    + fold (ofZ z). rewrite lt_ofZ. destruct (0 <? z)%Z eqn:B.
      * exists z. apply Z.ltb_lt in A, B. split; [lia | reflexivity].
      * exists 0%Z. split; [lia | reflexivity].
    + exists 100%Z. split; [lia | reflexivity].
Qed.

Lemma score_int (oem alt : Tyre) :
  score (scoreAlternative oem alt) = NaN \/
  exists k : Z, (0 <= k <= 100)%Z /\ score (scoreAlternative oem alt) = ofZ k.
Proof.
  destruct (safe (scoreAlternative oem alt)) eqn:S.
  - destruct (passing_inv oem alt S) as (_ & _ & _ & ->).
    unfold weightedScore. apply clamp_round_int.
  - right. exists 0%Z. split; [lia |].
    revert S. unfold scoreAlternative.
    destruct (gt _ _); [reflexivity |].
    destruct (negb _); [reflexivity |].
    cbv zeta. destruct (gt _ _); [reflexivity | discriminate].
Qed.

Lemma le_ofZ (a b : Z) : le (ofZ a) (ofZ b) = true <-> (a <= b)%Z.
Proof. unfold ofZ. rewrite le_Fin, <- Zle_Qle. reflexivity. Qed.

(** ** The deltas of a scored candidate are numbers *)

Lemma weightedScore_NaN (d w a : number) :
  d = NaN \/ w = NaN -> weightedScore d w a = NaN.
Proof.
  intros [-> | ->]; unfold weightedScore, penalty.
  - reflexivity.
  - cbn [div mul]. rewrite clamp_NaN, add_NaN_r. reflexivity.
Qed.


(** ** Scores under the comparison function *)

Lemma round64_small_int :
  allFrom (-100) 201 (fun d => eqbNum (round64 (inject_Z d)) (ofZ d)) = true.
Proof. vm_compute. reflexivity. Qed.

Lemma sub_ofZ (a b : Z) :
  (0 <= a <= 100)%Z -> (0 <= b <= 100)%Z -> sub (ofZ a) (ofZ b) = ofZ (a - b).
Proof.
  intros Ha Hb. unfold sub, neg, ofZ, add.
  assert (E : (inject_Z a + Qred (- inject_Z b) == inject_Z (a - b))%Q).
  { rewrite Qred_correct. unfold Z.sub.
    rewrite inject_Z_plus, inject_Z_opp. reflexivity. }
  rewrite (round64_compat _ _ E).
  apply eqbNum_eq.
  apply (allFrom_spec _ _ _ round64_small_int (a - b)%Z). lia.
Qed.

Lemma scoreZ_ofZ (k : Z) : scoreZ (ofZ k) = k.
Proof. apply Qfloor_Z. Qed.

Lemma byScoreDesc_key (a b : Scored) :
  intScore a -> intScore b ->
  gt (byScoreDesc a b) (ofZ 0) = (scoreKey a <? scoreKey b)%Z.
Proof.
  intros (ka & Ha & Ea) (kb & Hb & Eb).
  unfold byScoreDesc, scoreKey, gt. rewrite Ea, Eb, !scoreZ_ofZ.
  rewrite (sub_ofZ kb ka Hb Ha), lt_ofZ.
  destruct (0 <? kb - ka)%Z eqn:A, (ka <? kb)%Z eqn:B; try reflexivity.
  - apply Z.ltb_lt in A. apply Z.ltb_ge in B. lia.
  - apply Z.ltb_lt in B. apply Z.ltb_ge in A. lia.
Qed.

(** ** The search chain *)

Lemma filterSeen_In (x : Sized) (xs : list Sized) (seen : list string) :
  In x (filterSeen seen xs) -> In x xs.
Proof.
  revert seen. induction xs as [| y xs IH]; intros seen; [intros [] |].
  cbn [filterSeen]. destruct (existsb _ seen).
  - intros H. right. apply (IH _ H).
  - intros [<- | H]; [left; reflexivity | right; apply (IH _ H)].
Qed.


(** Every scored candidate is the verdict on a generated candidate. *)
Lemma scoredCandidates_inv (oemSize : string) (parsedOEM : Tyre) (x : Scored) :
  In x (scoredCandidates oemSize parsedOEM) ->
  exists t, In t (candidates parsedOEM) /\
    sc_size x = formatTyreSize t /\
    sc_safe x = safe (scoreAlternative parsedOEM t) /\
    sc_score x = score (scoreAlternative parsedOEM t) /\
    sc_reasons x = reasons (scoreAlternative parsedOEM t).
Proof.
  unfold scoredCandidates. intros H.
  apply in_map_iff in H. destruct H as (sz & <- & H).
  apply filterSeen_In in H. apply filter_In in H. destruct H as [H _].
  apply in_map_iff in H. destruct H as (t & <- & H).
  exists t. repeat split. exact H.
Qed.

Lemma shown_inv (oemSize : string) (parsedOEM : Tyre) (x : Scored) :
  In x (scoredCandidates oemSize parsedOEM) -> shown x = true ->
  sc_safe x = true /\ ge (sc_score x) (minScoreShown LIMITS) = true /\
  exists k : Z, (65 <= k <= 100)%Z /\ sc_score x = ofZ k.
Proof.
  intros Hin Hs. unfold shown in Hs. apply andb_true_iff in Hs.
  destruct Hs as [S G]. split; [exact S |]. split; [exact G |].
  destruct (scoredCandidates_inv _ _ _ Hin) as (t & _ & _ & _ & E & _).
  destruct (score_int parsedOEM t) as [N | (k & Hk & Ek)].
  - rewrite E, N in G. discriminate G.
  - rewrite E, Ek in *. exists k. split; [| reflexivity].
    unfold ge in G. change (minScoreShown LIMITS) with (ofZ 65) in G.
    apply le_ofZ in G. lia.
Qed.

Lemma shown_intScore (oemSize : string) (parsedOEM : Tyre) :
  Forall intScore (filter shown (scoredCandidates oemSize parsedOEM)).
Proof.
  apply Forall_forall. intros x H. apply filter_In in H.
  destruct H as [Hin Hs].
  destruct (shown_inv _ _ _ Hin Hs) as (_ & _ & k & Hk & E).
  exists k. split; [lia | exact E].
Qed.

Lemma scoredFor_In (oemSize : string) (parsedOEM : Tyre) (x : Scored) :
  In x (scoredFor oemSize parsedOEM) <->
  In x (scoredCandidates oemSize parsedOEM) /\ shown x = true.
Proof.
  unfold scoredFor. rewrite <- filter_In. split; intros H.
  - apply (Permutation_in x (sort_perm byScoreDesc _) H).
  - apply (Permutation_in x (Permutation_sym (sort_perm byScoreDesc _)) H).
Qed.




(** ** The returned list *)


Lemma StronglySorted_map_in {A B : Type} (g : A -> B)
    (R : A -> A -> Prop) (R' : B -> B -> Prop) (l : list A) :
  (forall a b, In a l -> In b l -> R a b -> R' (g a) (g b)) ->
  StronglySorted R l -> StronglySorted R' (map g l).
Proof.
  intros H S. induction S as [| a l S IH F]; cbn [map]; constructor.
  - apply IH. intros x y Hx Hy. apply H; right; assumption.
  - apply Forall_forall. intros y Hy.
    apply in_map_iff in Hy. destruct Hy as (b & <- & Hb).
    rewrite Forall_forall in F.
    apply H; [left; reflexivity | right; exact Hb | apply F, Hb].
Qed.



Lemma scoredFor_sorted (oemSize : string) (parsedOEM : Tyre) :
  StronglySorted (fun a b => ge (alt_score a) (alt_score b) = true)
    (alternativesFor oemSize parsedOEM).
Proof.
  assert (F := shown_intScore oemSize parsedOEM).
  unfold alternativesFor, scoredFor.
  apply StronglySorted_map_in with (R := keyDesc scoreKey);
    [| apply (sort_sorted byScoreDesc scoreKey intScore byScoreDesc_key _ F)].
  intros a b Ha Hb R.
  assert (F' := sort_Forall byScoreDesc intScore _ F).
  rewrite Forall_forall in F'.
  destruct (F' a Ha) as (ka & _ & Ea). destruct (F' b Hb) as (kb & _ & Eb).
  unfold keyDesc, scoreKey in R. cbn [dropSafe alt_score].
  rewrite Ea, Eb, !scoreZ_ofZ in *. unfold ge. apply le_ofZ. exact R.
Qed.



(** For the OEM size 205/55 R16 no candidate reaches the score of 65:
    the list is empty and no error is set. *)
Lemma empty_result_example :
  alts (runSearchFor "205/55 R16" demoState) = [] /\
  error (runSearchFor "205/55 R16" demoState) = "".
Proof. split; vm_compute; reflexivity. Qed.

(** * Further properties *)

Open Scope Q_scope.

(** ** Integers are exact *)

Lemma Qred_inject_Z (z : Z) : Qred (inject_Z z) = inject_Z z.
Proof.
  unfold Qred, inject_Z.
  assert (G := Z.ggcd_gcd z 1). assert (D := Z.ggcd_correct_divisors z 1).
  destruct (Z.ggcd z 1) as [g [a b]]. cbn [fst snd] in *.
  rewrite Z.gcd_1_r in G. subst g. destruct D as [Da Db].
  rewrite Z.mul_1_l in Da, Db. subst a b. reflexivity.
Qed.

Lemma ilog2_Z (z : Z) : (0 < z)%Z -> ilog2 (inject_Z z) = Z.log2 z.
Proof.
  intros H. destruct (log2_Q z H) as [A B]. apply ilog2_unique; assumption.
Qed.

Lemma nearest64_Z (z : Z) :
  (0 < z < 2 ^ 53)%Z -> nearest64 (inject_Z z) == inject_Z z.
Proof.
  intros [Hz Hb].
  assert (L0 := Z.log2_nonneg z).
  assert (L1 : (Z.log2 z < 53)%Z) by (apply Z.log2_lt_pow2; lia).
  assert (Hx : 0 < inject_Z z) by (change 0 with (inject_Z 0); rewrite <- Zlt_Qlt; exact Hz).
  unfold nearest64. rewrite (ulpExp_pos _ Hx), (ilog2_Z z Hz).
  replace (Z.max (Z.log2 z - 52) (-1074)) with (- (52 - Z.log2 z))%Z by lia.
  set (k := (52 - Z.log2 z)%Z). assert (Hk : (0 <= k)%Z) by (unfold k; lia).
  assert (P := pow2_pos k).
  assert (E : inject_Z z / 2 ^ (- k) == inject_Z (z * 2 ^ k)).
  { rewrite inject_Z_mult, (pow2_Z k Hk), Qpower_opp. field. lra. }
  rewrite (rne_compat _ _ E), rne_Z.
  rewrite inject_Z_mult, (pow2_Z k Hk), Qpower_opp. field. lra.
Qed.

Lemma round64_Z_pos (z : Z) :
  (0 < z < 2 ^ 53)%Z -> round64 (inject_Z z) = ofZ z.
Proof.
  intros H. rewrite round64_eq.
  rewrite (Qred_complete _ _ (nearest64_Z z H)), Qred_inject_Z.
  destruct (Qle_bool (2 ^ 1024) (Qabs (inject_Z z))) eqn:B; [| reflexivity].
  exfalso. apply Qle_bool_iff in B.
  rewrite Qabs_pos in B
    by (change 0 with (inject_Z 0); rewrite <- Zle_Qle; lia).
  rewrite <- (pow2_Z 1024) in B by lia. rewrite <- Zle_Qle in B.
  assert (2 ^ 53 < 2 ^ 1024)%Z by (apply Z.pow_lt_mono_r; lia). lia.
Qed.

(** Every integer of magnitude below [2^53] is a binary64 value. *)
Lemma round64_Z (z : Z) :
  (- 2 ^ 53 < z < 2 ^ 53)%Z -> round64 (inject_Z z) = ofZ z.
Proof.
  intros H. destruct (Z.lt_trichotomy z 0) as [N | [-> | P]].
  - assert (E : inject_Z z == - inject_Z (- z))
      by (rewrite inject_Z_opp; ring).
    rewrite (round64_compat _ _ E), round64_opp, round64_Z_pos by lia.
    unfold ofZ, neg. rewrite <- inject_Z_opp, Z.opp_involutive.
    rewrite Qred_inject_Z. reflexivity.
  - reflexivity.
  - apply round64_Z_pos. lia.
Qed.

Lemma add_ofZ (a b : Z) :
  (- 2 ^ 52 < a < 2 ^ 52)%Z -> (- 2 ^ 52 < b < 2 ^ 52)%Z ->
  add (ofZ a) (ofZ b) = ofZ (a + b).
Proof.
  intros Ha Hb. unfold add, ofZ.
  rewrite <- inject_Z_plus. apply round64_Z.
  change (2 ^ 53)%Z with (2 * 2 ^ 52)%Z. lia.
Qed.

Lemma sub_ofZ_general (a b : Z) :
  (- 2 ^ 52 < a < 2 ^ 52)%Z -> (- 2 ^ 52 < b < 2 ^ 52)%Z ->
  sub (ofZ a) (ofZ b) = ofZ (a - b).
Proof.
  intros Ha Hb. unfold sub, neg, ofZ at 1 2.
  rewrite <- inject_Z_opp, Qred_inject_Z.
  apply (add_ofZ a (- b)); lia.
Qed.
Close Scope Q_scope.

(** ** Sizes with integer fields *)

(** A string of three digit strings in the layout of [formatTyreSize]
    goes through the splits; what is left of the parse is the checks on
    the three numbers. *)
Lemma parse_joined_digits (sw sa sr : string) :
  isEmpty sw = false -> isEmpty sr = false ->
  allChars isDigit sw = true -> allChars isDigit sa = true ->
  allChars isDigit sr = true ->
  parseTyreSize (sw ++ "/" ++ sa ++ " R" ++ sr) =
    if negb (Number_isFinite (toNumber sw))
       || negb (Number_isFinite (toNumber sa))
       || negb (Number_isFinite (toNumber sr)) then None
    else if negb (String.length (toString (toNumber sw)) =? 3)%nat then None
    else if lt (toNumber sa) (ofZ 10) || gt (toNumber sa) (ofZ 95) then None
    else if lt (toNumber sr) (ofZ 10) || gt (toNumber sr) (ofZ 30) then None
    else Some {| widthMm := toNumber sw; aspect := toNumber sa;
                 rimIn := toNumber sr |}.
Proof.
  intros Hw Hr Dw Da Dr. unfold parseTyreSize.
  rewrite normalise_joined by assumption.
  destruct (split_joined sw sa sr Dw Da Dr) as [-> ->]. reflexivity.
Qed.

Lemma printsDigits_all : allFrom 10 990 printsDigits = true.
Proof. vm_compute. reflexivity. Qed.

Lemma toString_digits (z : Z) :
  (10 <= z <= 999)%Z -> toString (ofZ z) = digitsOf z.
Proof.
  intros H. apply String.eqb_eq.
  apply (allFrom_spec _ _ _ printsDigits_all z). simpl. lia.
Qed.

Lemma aspect_two_chars :
  allFrom 10 86 (fun z => 2 <=? String.length (toString (ofZ z)))%nat = true.
Proof. vm_compute. reflexivity. Qed.

Lemma pad_aspect (a : Z) :
  (10 <= a <= 95)%Z -> padStart 2 "0" (digitsOf a) = digitsOf a.
Proof.
  intros Ha. unfold padStart.
  assert (L : (2 <= String.length (digitsOf a))%nat).
  { rewrite <- (toString_digits a) by lia. apply Nat.leb_le.
    apply (allFrom_spec _ _ _ aspect_two_chars a). simpl. lia. }
  replace (2 - String.length (digitsOf a))%nat with 0%nat by lia.
  reflexivity.
Qed.

(** The strings of the fields of a well-formed size. *)
Lemma field_strings (w a r : Z) :
  (100 <= w <= 999)%Z -> (10 <= a <= 95)%Z -> (10 <= r <= 30)%Z ->
  formatTyreSize (mkTyre w a r)
    = digitsOf w ++ "/" ++ digitsOf a ++ " R" ++ digitsOf r /\
  (isEmpty (digitsOf w) = false /\ allChars isDigit (digitsOf w) = true /\
   toNumber (digitsOf w) = ofZ w) /\
  (allChars isDigit (digitsOf a) = true /\ toNumber (digitsOf a) = ofZ a) /\
  (isEmpty (digitsOf r) = false /\ allChars isDigit (digitsOf r) = true /\
   toNumber (digitsOf r) = ofZ r).
Proof.
  intros Hw Ha Hr.
  assert (Ow := allFrom_spec _ _ _ okWidth_all w ltac:(simpl; lia)).
  assert (Oa := allFrom_spec _ _ _ okAspect_all a ltac:(simpl; lia)).
  assert (Or := allFrom_spec _ _ _ okRim_all r ltac:(simpl; lia)).
  assert (Pa := pad_aspect a Ha).
  unfold okWidth, okAspect, okRim, printsBack in Ow, Oa, Or.
  change (padStart 0 "0" ?s) with s in Ow, Or.
  rewrite (toString_digits w) in Ow by lia.
  rewrite (toString_digits a), Pa in Oa by lia.
  rewrite (toString_digits r) in Or by lia.
  repeat match goal with
         | H : _ && _ = true |- _ => apply andb_true_iff in H; destruct H
         end.
  repeat match goal with
         | H : eqbNum _ _ = true |- _ => apply eqbNum_eq in H
         | H : negb _ = true |- _ => apply negb_true_iff in H
         end.
  unfold formatTyreSize. cbn [widthMm aspect rimIn mkTyre].
  rewrite (toString_digits w), (toString_digits a), (toString_digits r), Pa
    by lia.
  repeat split; assumption.
Qed.

Lemma parse_mk (w a r : Z) :
  (100 <= w <= 999)%Z -> (10 <= a <= 95)%Z -> (10 <= r <= 30)%Z ->
  parseTyreSize (formatTyreSize (mkTyre w a r)) = Some (mkTyre w a r).
Proof.
  intros Hw Ha Hr.
  destruct (field_strings w a r Hw Ha Hr)
    as (-> & (Ew & Dw & Nw) & (Da & Na) & (Er & Dr & Nr)).
  rewrite parse_joined_digits by assumption.
  rewrite Nw, Na, Nr. cbn [Number_isFinite negb orb].
  assert (Ow := allFrom_spec _ _ _ okWidth_all w ltac:(simpl; lia)).
  unfold okWidth in Ow. apply andb_true_iff in Ow. destruct Ow as [_ ->].
  unfold gt. rewrite !lt_ofZ.
  replace (a <? 10)%Z with false by (symmetry; apply Z.ltb_ge; lia).
  replace (95 <? a)%Z with false by (symmetry; apply Z.ltb_ge; lia).
  replace (r <? 10)%Z with false by (symmetry; apply Z.ltb_ge; lia).
  replace (30 <? r)%Z with false by (symmetry; apply Z.ltb_ge; lia).
  reflexivity.
Qed.

(** X3. Formatting a well-formed size prints its three integers in
    decimal, as width, slash, aspect, space, R, rim. *)
Theorem format_prints_integers (w a r : Z) :
  (100 <= w <= 999)%Z -> (10 <= a <= 95)%Z -> (10 <= r <= 30)%Z ->
  formatTyreSize (mkTyre w a r)
  = digitsOf w ++ "/" ++ digitsOf a ++ " R" ++ digitsOf r.
Proof. intros Hw Ha Hr. apply (field_strings w a r Hw Ha Hr). Qed.

Lemma format_prints_integers_witness :
  formatTyreSize (mkTyre 205 55 16) = "205/55 R16".
Proof.
  rewrite (format_prints_integers 205 55 16) by lia.
  vm_compute. reflexivity.
Defined.

(** X4. Two well-formed sizes with the same formatted string are the
    same size: removing duplicates by formatted string never drops a
    different well-formed size. *)
Theorem format_injective (t1 t2 : Tyre) :
  wellFormed t1 -> wellFormed t2 ->
  formatTyreSize t1 = formatTyreSize t2 -> t1 = t2.
Proof.
  intros (w1 & a1 & r1 & Hw1 & Ha1 & Hr1 & ->)
         (w2 & a2 & r2 & Hw2 & Ha2 & Hr2 & ->) E.
  assert (P1 := parse_mk w1 a1 r1 Hw1 Ha1 Hr1).
  assert (P2 := parse_mk w2 a2 r2 Hw2 Ha2 Hr2).
  rewrite E, P2 in P1. injection P1 as -> -> ->. reflexivity.
Qed.

Lemma format_injective_witness :
  wellFormed (mkTyre 265 30 20) /\
  formatTyreSize (mkTyre 265 30 20) = formatTyreSize (mkTyre 265 30 20) /\
  mkTyre 265 30 20 = mkTyre 265 30 20.
Proof.
  assert (W : wellFormed (mkTyre 265 30 20)).
  { exists 265%Z, 30%Z, 20%Z. repeat split; (lia || reflexivity). }
  split; [exact W |]. split; [reflexivity |].
  apply (format_injective _ _ W W). reflexivity.
Defined.

Lemma slug_mk (w a r : Z) :
  (100 <= w <= 999)%Z -> (10 <= a <= 95)%Z -> (10 <= r <= 30)%Z ->
  let slug := digitsOf w ++ "-" ++ digitsOf a ++ "-" ++ digitsOf r in
  sizeToSlug (formatTyreSize (mkTyre w a r)) = Some slug /\
  retailerLinksForSize (formatTyreSize (mkTyre w a r)) =
    {| blackcircles := Some ("https://www.blackcircles.com/tyres/" ++ slug);
       national := Some ("https://www.national.co.uk/tyres-search/" ++ slug) |}.
Proof.
  intros Hw Ha Hr slug.
  assert (S : sizeToSlug (formatTyreSize (mkTyre w a r)) = Some slug).
  { unfold sizeToSlug. rewrite (parse_mk w a r Hw Ha Hr).
    cbn [widthMm aspect rimIn mkTyre].
    rewrite !toString_digits by lia.
    rewrite (pad_aspect a Ha). reflexivity. }
  split; [exact S |]. unfold retailerLinksForSize. rewrite S. reflexivity.
Qed.

(** X5. The slug of the formatted string of a well-formed size is its
    three integers joined by dashes, and both retailer links are the
    site prefix followed by the slug. *)
Theorem slug_of_formatted (w a r : Z) :
  (100 <= w <= 999)%Z -> (10 <= a <= 95)%Z -> (10 <= r <= 30)%Z ->
  let slug := digitsOf w ++ "-" ++ digitsOf a ++ "-" ++ digitsOf r in
  sizeToSlug (formatTyreSize (mkTyre w a r)) = Some slug /\
  retailerLinksForSize (formatTyreSize (mkTyre w a r)) =
    {| blackcircles := Some ("https://www.blackcircles.com/tyres/" ++ slug);
       national := Some ("https://www.national.co.uk/tyres-search/" ++ slug) |}.
Proof. exact (slug_mk w a r). Qed.

Lemma slug_of_formatted_witness :
  sizeToSlug "205/55 R16" = Some "205-55-16".
Proof.
  assert (F : "205/55 R16" = formatTyreSize (mkTyre 205 55 16))
    by (vm_compute; reflexivity).
  rewrite F.
  rewrite (proj1 (slug_of_formatted 205 55 16 ltac:(lia) ltac:(lia) ltac:(lia))).
  vm_compute. reflexivity.
Defined.

(** ** Candidates of a size with integer fields *)

Lemma candidates_mk (w a r : Z) :
  (- 2 ^ 50 < w < 2 ^ 50)%Z -> (- 2 ^ 50 < a < 2 ^ 50)%Z ->
  candidates (mkTyre w a r) =
    [mkTyre (w - 20) a r; mkTyre (w - 10) a r;
     mkTyre (w + 10) a r; mkTyre (w + 20) a r;
     mkTyre w (a - 5) r; mkTyre w (a + 5) r;
     mkTyre (w - 10) (a - 5) r; mkTyre (w + 10) (a - 5) r].
Proof.
  intros Hw Ha. unfold candidates, widths, aspects, mkTyre.
  cbn [map app widthMm aspect rimIn].
  rewrite !add_ofZ, !sub_ofZ_general by lia. reflexivity.
Qed.

(** X14. On a size with integer fields the eight candidates are computed
    without rounding: widths 20 and 10 below and above, aspects 5 below
    and above, and the two combinations with the aspect 5 below. *)
Theorem candidates_of_integers (w a r : Z) :
  (- 2 ^ 50 < w < 2 ^ 50)%Z -> (- 2 ^ 50 < a < 2 ^ 50)%Z ->
  candidates (mkTyre w a r) =
    [mkTyre (w - 20) a r; mkTyre (w - 10) a r;
     mkTyre (w + 10) a r; mkTyre (w + 20) a r;
     mkTyre w (a - 5) r; mkTyre w (a + 5) r;
     mkTyre (w - 10) (a - 5) r; mkTyre (w + 10) (a - 5) r].
Proof. exact (candidates_mk w a r). Qed.

Lemma candidates_of_integers_witness :
  map formatTyreSize (candidates (mkTyre 265 30 20)) =
    ["245/30 R20"; "255/30 R20"; "275/30 R20"; "285/30 R20";
     "265/25 R20"; "265/35 R20"; "255/25 R20"; "275/25 R20"].
Proof.
  rewrite (candidates_of_integers 265 30 20) by lia.
  vm_compute. reflexivity.
Defined.

Lemma scoredCandidates_links (oemSize : string) (parsedOEM : Tyre) (x : Scored) :
  In x (scoredCandidates oemSize parsedOEM) ->
  sc_links x = retailerLinksForSize (sc_size x).
Proof.
  unfold scoredCandidates. intros H.
  apply in_map_iff in H. destruct H as (sz & <- & _). reflexivity.
Qed.

(** X18. When the OEM size is well-formed and not within 20 of the width
    bounds or 5 of the aspect bounds, every returned entry is the
    formatted string of a well-formed size and carries both retailer
    links. *)
Theorem returned_entries_have_links
    (oemSize : string) (w a r : Z) (st : PageState) (e : Alt) :
  (120 <= w <= 979)%Z -> (15 <= a <= 90)%Z -> (10 <= r <= 30)%Z ->
  parseTyreSize oemSize = Some (mkTyre w a r) ->
  In e (alts (runSearchFor oemSize st)) ->
  exists w' a' : Z,
    (100 <= w' <= 999)%Z /\ (10 <= a' <= 95)%Z /\
    size e = formatTyreSize (mkTyre w' a' r) /\
    links e = retailerLinksForSize (formatTyreSize (mkTyre w' a' r)) /\
    blackcircles (links e) <> None /\ national (links e) <> None.
Proof.
  intros Hw Ha Hr HP. unfold runSearchFor. rewrite HP.
  destruct (negb _); cbn [alts]; [intros [] |].
  unfold alternativesFor. intros H.
  apply in_map_iff in H. destruct H as (x & <- & H).
  apply scoredFor_In in H. destruct H as [Hin _].
  assert (L := scoredCandidates_links _ _ _ Hin).
  destruct (scoredCandidates_inv _ _ _ Hin) as (t & Ht & Esz & _).
  rewrite candidates_mk in Ht by lia.
  cbn [dropSafe size links]. rewrite L, Esz.
  assert (K : forall w' a', (100 <= w' <= 999)%Z -> (10 <= a' <= 95)%Z ->
            t = mkTyre w' a' r ->
            exists w' a' : Z,
              (100 <= w' <= 999)%Z /\ (10 <= a' <= 95)%Z /\
              formatTyreSize t = formatTyreSize (mkTyre w' a' r) /\
              retailerLinksForSize (formatTyreSize t)
              = retailerLinksForSize (formatTyreSize (mkTyre w' a' r)) /\
              blackcircles (retailerLinksForSize (formatTyreSize t)) <> None /\
              national (retailerLinksForSize (formatTyreSize t)) <> None).
  { intros w' a' Hw' Ha' ->. exists w', a'.
    assert (S := slug_mk w' a' r Hw' Ha' Hr). cbv zeta in S.
    destruct S as [_ ->].
    repeat split; first [lia | reflexivity | discriminate]. }
  cbn [In] in Ht.
  repeat (destruct Ht as [<- | Ht]; [eapply K; [| | reflexivity]; lia |]).
  destruct Ht.
Qed.

Lemma returned_entries_have_links_witness :
  exists w' a' : Z,
    (100 <= w' <= 999)%Z /\ (10 <= a' <= 95)%Z /\
    "255/30 R20" = formatTyreSize (mkTyre w' a' 20) /\
    retailerLinksForSize "255/30 R20"
    = retailerLinksForSize (formatTyreSize (mkTyre w' a' 20)) /\
    blackcircles (retailerLinksForSize "255/30 R20") <> None /\
    national (retailerLinksForSize "255/30 R20") <> None.
Proof.
  assert (HP : parseTyreSize OEM_TYRE = Some (mkTyre 265 30 20))
    by (vm_compute; reflexivity).
  assert (HI : In (dropSafe (scoreSized (mkTyre 265 30 20)
                     {| sz_t := mkTyre 255 30 20; sz_size := "255/30 R20" |}))
                  (alts (runSearchFor OEM_TYRE demoState)))
    by (vm_compute; left; reflexivity).
  exact (returned_entries_have_links OEM_TYRE 265 30 20 demoState _
           ltac:(lia) ltac:(lia) ltac:(lia) HP HI).
Defined.

(** Next to the width bound an entry is returned without links: for
    995/30 R20 the candidate 1005/30 R20 scores 74 and does not parse. *)
Lemma returned_entry_without_links :
  map (fun e => (size e, blackcircles (links e)))
      (alts (runSearchFor "995/30 R20" demoState))
  = [("985/30 R20", Some "https://www.blackcircles.com/tyres/985-30-20");
     ("1005/30 R20", None)].
Proof. vm_compute. reflexivity. Qed.

(** ** [clamp] *)

Lemma Math_min_cases (h n : number) :
  h <> NaN -> n <> NaN -> Math_min h n = if lt n h then n else h.
Proof. intros Hh Hn. destruct h, n; congruence || reflexivity. Qed.

Lemma Math_max_cases (l n : number) :
  l <> NaN -> n <> NaN -> Math_max l n = if lt l n then n else l.
Proof. intros Hl Hn. destruct l, n; congruence || reflexivity. Qed.

(** X6. [clamp] keeps a number between its bounds and lets [NaN] through:
    for [min <= max] and [n] a number the result lies in [[min, max]],
    a number already in the interval is returned, and [clamp NaN] is
    [NaN] whatever the bounds. *)
Theorem clamp_spec (n lo hi : number) :
  le lo hi = true ->
  (n <> NaN ->
   le lo (clamp n lo hi) = true /\ le (clamp n lo hi) hi = true) /\
  (le lo n = true -> le n hi = true -> strictEq (clamp n lo hi) n = true) /\
  clamp NaN lo hi = NaN.
Proof.
  intros H. destruct (le_not_NaN _ _ H) as [Hlo Hhi].
  assert (R : forall a, a <> NaN -> strictEq a a = true).
  { intros [| [] | q] Ha; try reflexivity; [congruence |].
    apply Qeq_bool_iff. reflexivity. }
  assert (S : forall a b, le a b = true -> le b a = true ->
                          strictEq a b = true).
  { intros a b H1 H2. unfold le in H1.
    rewrite (lt_le_false _ _ H2) in H1. exact H1. }
  split; [| split].
  - intros Hn. unfold clamp. rewrite (Math_min_cases hi n Hhi Hn).
    destruct (lt n hi) eqn:A.
    + rewrite (Math_max_cases lo n Hlo Hn). destruct (lt lo n) eqn:B.
      * split; [apply lt_le, B | apply lt_le, A].
      * split; [apply le_refl, Hlo | exact H].
    + rewrite (Math_max_cases lo hi Hlo Hhi). destruct (lt lo hi) eqn:B.
      * split; [exact H | apply le_refl, Hhi].
      * split; [apply le_refl, Hlo | exact H].
  - intros L U. destruct (le_not_NaN _ _ L) as [_ Hn].
    unfold clamp. rewrite (Math_min_cases hi n Hhi Hn).
    destruct (lt n hi) eqn:A.
    + rewrite (Math_max_cases lo n Hlo Hn). destruct (lt lo n) eqn:B.
      * apply R, Hn.
      * apply S; [exact L |]. apply lt_false_le; assumption.
    + assert (E : strictEq hi n = true).
      { apply S; [| exact U]. apply lt_false_le; assumption. }
      rewrite (Math_max_cases lo hi Hlo Hhi). destruct (lt lo hi) eqn:B.
      * exact E.
      * apply S; [exact L |].
        apply le_trans with hi; [exact U |]. apply lt_false_le; assumption.
  - apply clamp_NaN.
Qed.

Lemma clamp_spec_witness :
  clamp (ofZ 120) (ofZ 0) (ofZ 100) = ofZ 100 /\
  le (ofZ 0) (clamp (ofZ 120) (ofZ 0) (ofZ 100)) = true /\
  le (clamp (ofZ 120) (ofZ 0) (ofZ 100)) (ofZ 100) = true.
Proof.
  split; [vm_compute; reflexivity |].
  apply (proj1 (clamp_spec (ofZ 120) (ofZ 0) (ofZ 100) eq_refl)).
  discriminate.
Defined.

(** ** The outcome of [scoreAlternative] *)

(** X9. A candidate is safe exactly when it passes the three gates: the
    diameter delta is not above 3.0, the rims are equal and the width
    delta is not above 25.  A candidate that is not safe has score 0. *)
Theorem safe_iff_gates (oem alt : Tyre) :
  (safe (scoreAlternative oem alt) = true <->
   gt (diaDelta oem alt) (diameterPctMax LIMITS) = false /\
   strictEq (rimIn alt) (rimIn oem) = true /\
   gt (widthDelta oem alt) (widthDeltaMaxMm LIMITS) = false) /\
  (safe (scoreAlternative oem alt) = false ->
   score (scoreAlternative oem alt) = ofZ 0).
Proof.
  unfold scoreAlternative.
  fold (diaDelta oem alt). fold (widthDelta oem alt).
  destruct (gt (diaDelta oem alt) _) eqn:G1.
  { split; [split; [discriminate | intros (? & _); discriminate] |].
    reflexivity. }
  destruct (strictEq (rimIn alt) (rimIn oem)) eqn:G2; cbn [negb].
  2: { split; [split; [discriminate | intros (_ & ? & _); discriminate] |].
       reflexivity. }
  cbv zeta. destruct (gt (widthDelta oem alt) _) eqn:G3.
  { split; [split; [discriminate | intros (_ & _ & ?); discriminate] |].
    reflexivity. }
  split; [split; [intros _; repeat split | reflexivity] | discriminate].
Qed.

Lemma safe_iff_gates_witness :
  safe (scoreAlternative (mkTyre 265 30 20) (mkTyre 255 30 20)) = true /\
  score (scoreAlternative (mkTyre 265 30 20) (mkTyre 265 25 20)) = ofZ 0.
Proof.
  split.
  - apply (proj1 (safe_iff_gates (mkTyre 265 30 20) (mkTyre 255 30 20))).
    repeat split; vm_compute; reflexivity.
  - apply (proj2 (safe_iff_gates (mkTyre 265 30 20) (mkTyre 265 25 20))).
    vm_compute. reflexivity.
Defined.

(** X10. The width gate, the third: on the same rim and with a diameter
    delta within the limit, a width delta above 25 rejects the
    candidate with score 0, and the one reason cites the delta and the
    limit. *)
Theorem width_gate_rejects (oem alt : Tyre) :
  gt (diaDelta oem alt) (diameterPctMax LIMITS) = false ->
  strictEq (rimIn alt) (rimIn oem) = true ->
  gt (widthDelta oem alt) (widthDeltaMaxMm LIMITS) = true ->
  scoreAlternative oem alt =
    {| safe := false; score := ofZ 0;
       reasons := ["Width Δ " ++ toString (widthDelta oem alt)
                   ++ "mm (limit ±25mm)"] |}.
Proof.
  intros G1 G2 G3. unfold scoreAlternative.
  fold (diaDelta oem alt). fold (widthDelta oem alt).
  rewrite G1, G2. cbn [negb]. cbv zeta. rewrite G3. reflexivity.
Qed.

Lemma width_gate_rejects_witness :
  scoreAlternative (mkTyre 265 30 20) (mkTyre 295 27 20) =
    {| safe := false; score := ofZ 0;
       reasons := ["Width Δ 30mm (limit ±25mm)"] |}.
Proof.
  rewrite (width_gate_rejects (mkTyre 265 30 20) (mkTyre 295 27 20));
    vm_compute; reflexivity.
Defined.

(** X11. The score of every verdict is an integer from 0 to 100, or
    [NaN]. *)
Theorem score_integer_or_NaN (oem alt : Tyre) :
  score (scoreAlternative oem alt) = NaN \/
  exists k : Z, (0 <= k <= 100)%Z /\ score (scoreAlternative oem alt) = ofZ k.
Proof. exact (score_int oem alt). Qed.

(** X12. A diameter delta that is [NaN] is not above the limit: on the
    same rim and within the width limit such a candidate is reported
    safe, with the score [NaN]. *)
Theorem nan_delta_reported_safe (oem alt : Tyre) :
  diaDelta oem alt = NaN ->
  strictEq (rimIn alt) (rimIn oem) = true ->
  gt (widthDelta oem alt) (widthDeltaMaxMm LIMITS) = false ->
  safe (scoreAlternative oem alt) = true /\
  score (scoreAlternative oem alt) = NaN.
Proof.
  intros D G2 G3.
  assert (S : safe (scoreAlternative oem alt) = true).
  { unfold scoreAlternative.
    fold (diaDelta oem alt). fold (widthDelta oem alt).
    rewrite D, G2. cbn [gt lt negb]. cbv zeta. rewrite G3. reflexivity. }
  split; [exact S |].
  destruct (passing_inv oem alt S) as (_ & _ & _ & ->).
  apply weightedScore_NaN. left. exact D.
Qed.

Lemma nan_delta_reported_safe_witness :
  overallDiameterMm (mkTyre 0 0 0) = ofZ 0 /\
  safe (scoreAlternative (mkTyre 0 0 0) (mkTyre 0 0 0)) = true /\
  score (scoreAlternative (mkTyre 0 0 0) (mkTyre 0 0 0)) = NaN.
Proof.
  split; [vm_compute; reflexivity |].
  apply (nan_delta_reported_safe (mkTyre 0 0 0) (mkTyre 0 0 0));
    vm_compute; reflexivity.
Defined.

(** ** The diameter of a well-formed size *)

Open Scope Q_scope.

(** A rounded value lies between the rounded bounds. *)
Lemma round64_in (x a b lo hi : Q) :
  a <= x -> x <= b ->
  le (Fin lo) (round64 a) = true -> le (round64 b) (Fin hi) = true ->
  exists r, round64 x = Fin r /\ lo <= r <= hi.
Proof.
  intros Ha Hb La Lb.
  assert (A := le_trans _ _ _ La (round64_mono a x Ha)).
  assert (B := le_trans _ _ _ (round64_mono x b Hb) Lb).
  destruct (round64 x) as [| s | r].
  - discriminate A.
  - destruct s; [discriminate A | discriminate B].
  - exists r. split; [reflexivity |]. split; apply le_Fin_Q; assumption.
Qed.

Lemma inchMm_value : inchMm = Fin (3574732204225331 # 140737488355328).
Proof. vm_compute. reflexivity. Qed.

(** The diameter of a well-formed size, step by step: every
    intermediate result is finite. *)
Lemma diameter_steps (w a r : Z) :
  (100 <= w <= 999)%Z -> (10 <= a <= 95)%Z -> (10 <= r <= 30)%Z ->
  exists m p s s2 d : Q,
    mul (ofZ r) inchMm = Fin m /\
    div (ofZ a) (ofZ 100) = Fin p /\ (1 # 10) <= p <= (19 # 20) /\
    mul (ofZ w) (Fin p) = Fin s /\ 10 <= s <= 950 /\
    mul (ofZ 2) (Fin s) = Fin s2 /\
    add (Fin m) (Fin s2) = Fin d /\ 274 <= d <= 2662 /\
    overallDiameterMm (mkTyre w a r) = Fin d.
Proof.
  intros Hw Ha Hr.
  assert (Qw : 100 <= inject_Z w <= 999)
    by (split; [change 100 with (inject_Z 100) | change 999 with (inject_Z 999)];
        rewrite <- Zle_Qle; lia).
  assert (Qa : 10 <= inject_Z a <= 95)
    by (split; [change 10 with (inject_Z 10) | change 95 with (inject_Z 95)];
        rewrite <- Zle_Qle; lia).
  assert (Qr : 10 <= inject_Z r <= 30)
    by (split; [change 10 with (inject_Z 10) | change 30 with (inject_Z 30)];
        rewrite <- Zle_Qle; lia).
  unfold overallDiameterMm, mkTyre. cbn [widthMm aspect rimIn].
  rewrite inchMm_value. set (qi := 3574732204225331 # 140737488355328).
  unfold ofZ. change (inject_Z 100) with 100. change (inject_Z 2) with 2.
  generalize dependent (inject_Z w). intros qw Qw.
  generalize dependent (inject_Z a). intros qa Qa.
  generalize dependent (inject_Z r). intros qr Qr.
  assert (Hm : exists m, mul (Fin qr) (Fin qi) = Fin m /\ 254 <= m <= 762).
  { apply (round64_in _ (10 * qi) (30 * qi));
      [subst qi; lra | subst qi; lra
       | vm_compute; reflexivity | vm_compute; reflexivity]. }
  destruct Hm as (m & Em & Hm).
  assert (Hp : exists p, div (Fin qa) (Fin 100) = Fin p
                         /\ (1 # 10) <= p <= (19 # 20)).
  { unfold div. change (Qeq_bool 100 0) with false. cbv iota.
    apply (round64_in _ (10 / 100) (95 / 100));
      [apply Qdiv_le_compat; [reflexivity | lra]
       | apply Qdiv_le_compat; [reflexivity | lra]
       | vm_compute; reflexivity | vm_compute; reflexivity]. }
  destruct Hp as (p & Ep & Hp).
  assert (Hs : exists s, mul (Fin qw) (Fin p) = Fin s /\ 10 <= s <= 950).
  { apply (round64_in _ 10 950);
      [nra | nra | vm_compute; reflexivity | vm_compute; reflexivity]. }
  destruct Hs as (s & Es & Hs).
  assert (Hs2 : exists s2, mul (Fin 2) (Fin s) = Fin s2 /\ 20 <= s2 <= 1900).
  { apply (round64_in _ 20 1900);
      [lra | lra | vm_compute; reflexivity | vm_compute; reflexivity]. }
  destruct Hs2 as (s2 & Es2 & Hs2).
  assert (Hd : exists d, add (Fin m) (Fin s2) = Fin d /\ 274 <= d <= 2662).
  { apply (round64_in _ 274 2662);
      [lra | lra | vm_compute; reflexivity | vm_compute; reflexivity]. }
  destruct Hd as (d & Ed & Hd).
  exists m, p, s, s2, d. rewrite Em, Ep, Es, Es2, Ed.
  repeat split; first [apply Hp | apply Hs | apply Hd].
Qed.


Lemma diameter_mk (w a r : Z) :
  (100 <= w <= 999)%Z -> (10 <= a <= 95)%Z -> (10 <= r <= 30)%Z ->
  exists d, overallDiameterMm (mkTyre w a r) = Fin d /\ 274 <= d <= 2662.
Proof.
  intros Hw Ha Hr.
  destruct (diameter_steps w a r Hw Ha Hr)
    as (m & p & s & s2 & d & _ & _ & _ & _ & _ & _ & _ & Hd & E).
  exists d. split; assumption.
Qed.

(** X7. The overall diameter of a well-formed size is a finite number
    between 274 and 2662 millimetres; it is never zero, so the
    percentage difference to a well-formed OEM size never divides by
    zero. *)
Theorem diameter_of_well_formed (t : Tyre) :
  wellFormed t ->
  exists d, overallDiameterMm t = Fin d /\ 274 <= d <= 2662.
Proof.
  intros (w & a & r & Hw & Ha & Hr & ->). apply diameter_mk; assumption.
Qed.

Lemma diameter_of_well_formed_witness :
  exists d, overallDiameterMm (mkTyre 265 30 20) = Fin d /\ 274 <= d <= 2662.
Proof.
  apply diameter_of_well_formed.
  exists 265%Z, 30%Z, 20%Z. repeat split; (lia || reflexivity).
Defined.

Lemma round64_zero (x : Q) : x == 0 -> round64 x = Fin 0.
Proof. intros E. rewrite (round64_compat _ _ E). reflexivity. Qed.

Lemma pctDiff_same (d : Q) : ~ d == 0 -> pctDiff (Fin d) (Fin d) = Fin 0.
Proof.
  intros N. unfold pctDiff, sub, neg, add.
  rewrite (round64_zero (d + Qred (- d)))
    by (rewrite Qred_correct; ring).
  unfold div.
  replace (Qeq_bool d 0) with false
    by (symmetry; destruct (Qeq_bool d 0) eqn:E; [| reflexivity];
        apply Qeq_bool_iff in E; contradiction).
  rewrite (round64_zero (0 / d)) by (unfold Qdiv; ring).
  reflexivity.
Qed.

Close Scope Q_scope.

(** X13. A well-formed size scored against itself is safe with the score
    100 and three deltas of zero. *)
Theorem same_size_scores_100 (t : Tyre) :
  wellFormed t ->
  scoreAlternative t t =
    {| safe := true; score := ofZ 100;
       reasons := ["Diameter Δ 0.00%"; "Width Δ 0mm"; "Aspect Δ 0"] |}.
Proof.
  intros (w & a & r & Hw & Ha & Hr & ->).
  destruct (diameter_mk w a r Hw Ha Hr) as (d & Ed & Hd).
  unfold scoreAlternative. rewrite Ed.
  rewrite pctDiff_same by (intros E; rewrite E in Hd; destruct Hd as [Hd _];
                           revert Hd; vm_compute; intros Hd; apply Hd; reflexivity).
  cbn [mkTyre widthMm aspect rimIn].
  rewrite !sub_ofZ_general by lia. rewrite !Z.sub_diag.
  assert (R : strictEq (ofZ r) (ofZ r) = true)
    by (apply Qeq_bool_iff; reflexivity).
  rewrite R. vm_compute. reflexivity.
Qed.

Lemma same_size_scores_100_witness :
  score (scoreAlternative (mkTyre 265 30 20) (mkTyre 265 30 20)) = ofZ 100.
Proof.
  rewrite (same_size_scores_100 (mkTyre 265 30 20)); [reflexivity |].
  exists 265%Z, 30%Z, 20%Z. repeat split; (lia || reflexivity).
Defined.


(** X8. Among well-formed sizes the overall diameter never decreases
    when the width, the aspect and the rim do not decrease. *)
Theorem diameter_monotone (w a r w' a' r' : Z) :
  (100 <= w <= 999)%Z -> (10 <= a <= 95)%Z -> (10 <= r <= 30)%Z ->
  (100 <= w' <= 999)%Z -> (10 <= a' <= 95)%Z -> (10 <= r' <= 30)%Z ->
  (w <= w')%Z -> (a <= a')%Z -> (r <= r')%Z ->
  le (overallDiameterMm (mkTyre w a r)) (overallDiameterMm (mkTyre w' a' r'))
  = true.
Proof.
  intros Hw Ha Hr Hw' Ha' Hr' Lw La Lr.
  destruct (diameter_steps w a r Hw Ha Hr)
    as (m & p & s & s2 & d & Em & Ep & Hp & Es & Hs & Es2 & Ed & _ & ->).
  destruct (diameter_steps w' a' r' Hw' Ha' Hr')
    as (m' & p' & s' & s2' & d' & Em' & Ep' & Hp' & Es' & Hs' & Es2' & Ed'
        & _ & ->).
  assert (Mm : (m <= m')%Q).
  { apply le_Fin_Q. rewrite <- Em, <- Em', inchMm_value.
    apply mul_mono; [reflexivity | apply le_ofZ, Lr]. }
  assert (Mp : (p <= p')%Q).
  { apply le_Fin_Q. rewrite <- Ep, <- Ep'.
    apply (div_mono 100); [reflexivity | apply le_ofZ, La]. }
  assert (Ms : (s <= s')%Q).
  { apply le_Fin_Q. rewrite <- Es, <- Es'. unfold mul, ofZ.
    apply round64_mono.
    assert (Qw : (100 <= inject_Z w)%Q)
      by (change 100%Q with (inject_Z 100); rewrite <- Zle_Qle; lia).
    assert (Qww : (inject_Z w <= inject_Z w')%Q)
      by (rewrite <- Zle_Qle; exact Lw).
    generalize dependent (inject_Z w). generalize dependent (inject_Z w').
    intros qw' qw Qw Qww. nra. }
  assert (Ms2 : (s2 <= s2')%Q).
  { apply le_Fin_Q. rewrite <- Es2, <- Es2'. unfold mul, ofZ.
    apply round64_mono. change (inject_Z 2) with 2%Q. lra. }
  rewrite <- Ed, <- Ed'. unfold add. apply round64_mono. lra.
Qed.

Lemma diameter_monotone_witness :
  le (overallDiameterMm (mkTyre 205 55 16)) (overallDiameterMm (mkTyre 215 55 17))
  = true.
Proof. apply diameter_monotone; lia. Defined.

(** ** The returned list *)

Lemma existsb_eqb_In (s : string) (l : list string) :
  existsb (String.eqb s) l = true <-> In s l.
Proof.
  rewrite existsb_exists. split.
  - intros (y & Hy & E). apply String.eqb_eq in E. subst y. exact Hy.
  - intros H. exists s. split; [exact H | apply String.eqb_refl].
Qed.

Lemma filterSeen_fresh (xs : list Sized) (seen : list string) :
  NoDup (map sz_size (filterSeen seen xs)) /\
  forall x, In x (filterSeen seen xs) -> ~ In (sz_size x) seen.
Proof.
  revert seen. induction xs as [| y xs IH]; intros seen.
  - split; [constructor | intros x []].
  - cbn [filterSeen]. destruct (existsb (String.eqb (sz_size y)) seen) eqn:E.
    + apply IH.
    + destruct (IH (sz_size y :: seen)) as [N F]. split.
      * cbn [map]. constructor; [| exact N].
        intros H. apply in_map_iff in H. destruct H as (x & Ex & Hx).
        apply (F x Hx). left. symmetry. exact Ex.
      * intros x [<- | Hx].
        -- intros H. apply existsb_eqb_In in H. congruence.
        -- intros H. apply (F x Hx). right. exact H.
Qed.

Lemma NoDup_map_filter {A B : Type} (f : A -> B) (g : A -> bool) (l : list A) :
  NoDup (map f l) -> NoDup (map f (filter g l)).
Proof.
  induction l as [| x l IH]; cbn [map filter]; intros H; [constructor |].
  inversion H as [| ? ? Hx Hl]; subst.
  destruct (g x); [| apply IH, Hl].
  cbn [map]. constructor; [| apply IH, Hl].
  intros K. apply Hx. apply in_map_iff in K. destruct K as (y & E & Hy).
  apply filter_In in Hy. apply in_map_iff. exists y. split; [exact E | apply Hy].
Qed.

Lemma filterSeen_length (xs : list Sized) (seen : list string) :
  (List.length (filterSeen seen xs) <= List.length xs)%nat.
Proof.
  revert seen. induction xs as [| y xs IH]; intros seen; [apply Nat.le_refl |].
  cbn [filterSeen]. destruct (existsb _ seen); cbn [List.length].
  - apply Nat.le_trans with (List.length xs); [apply IH | apply Nat.le_succ_diag_r].
  - apply le_n_S, IH.
Qed.

Lemma alternativesFor_sizes (oemSize : string) (parsedOEM : Tyre) :
  NoDup (map size (alternativesFor oemSize parsedOEM)) /\
  (forall e, In e (alternativesFor oemSize parsedOEM) -> size e <> oemSize) /\
  (List.length (alternativesFor oemSize parsedOEM) <= 8)%nat.
Proof.
  unfold alternativesFor, scoredFor.
  set (sized := filter (fun x => negb (String.eqb (sz_size x) oemSize))
                  (map (fun t => {| sz_t := t; sz_size := formatTyreSize t |})
                     (candidates parsedOEM))).
  assert (SC : scoredCandidates oemSize parsedOEM
               = map (scoreSized parsedOEM) (filterSeen [] sized))
    by reflexivity.
  assert (P := sort_perm byScoreDesc
                 (filter shown (scoredCandidates oemSize parsedOEM))).
  split; [| split].
  - rewrite map_map.
    change (fun x => size (dropSafe x)) with sc_size.
    apply (Permutation_NoDup (Permutation_sym (Permutation_map sc_size P))).
    apply NoDup_map_filter. rewrite SC, map_map.
    change (fun x => sc_size (scoreSized parsedOEM x)) with sz_size.
    apply filterSeen_fresh.
  - intros e H. apply in_map_iff in H. destruct H as (x & <- & H).
    apply (Permutation_in x P) in H. apply filter_In in H.
    destruct H as [H _]. rewrite SC in H.
    apply in_map_iff in H. destruct H as (sz & <- & H).
    apply filterSeen_In in H. apply filter_In in H. destruct H as [_ H].
    cbn [dropSafe size scoreSized sc_size].
    apply negb_true_iff, String.eqb_neq in H. exact H.
  - rewrite length_map, (Permutation_length P).
    apply Nat.le_trans with (List.length (scoredCandidates oemSize parsedOEM)).
    { clear. induction (scoredCandidates oemSize parsedOEM) as [| x l IH];
        [apply Nat.le_refl |].
      cbn [filter]. destruct (shown x); cbn [List.length];
        [apply le_n_S, IH | apply Nat.le_trans with (List.length l);
                            [apply IH | apply Nat.le_succ_diag_r]]. }
    rewrite SC, length_map.
    apply Nat.le_trans with (List.length sized); [apply filterSeen_length |].
    unfold sized.
    apply Nat.le_trans with
      (List.length (map (fun t => {| sz_t := t; sz_size := formatTyreSize t |})
                 (candidates parsedOEM))).
    { generalize (map (fun t => {| sz_t := t; sz_size := formatTyreSize t |})
                    (candidates parsedOEM)).
      intros l. induction l as [| x l IH]; [apply Nat.le_refl |].
      cbn [filter]. destruct (negb _); cbn [List.length];
        [apply le_n_S, IH | apply Nat.le_trans with (List.length l);
                            [apply IH | apply Nat.le_succ_diag_r]]. }
    rewrite length_map. apply Nat.le_refl.
Qed.

(** X16. When the OEM size parses, the returned list has at most eight
    entries, their sizes are pairwise different, and none is the OEM
    size string. *)
Theorem returned_sizes_distinct
    (oemSize : string) (parsedOEM : Tyre) (st : PageState) :
  parseTyreSize oemSize = Some parsedOEM ->
  NoDup (map size (alts (runSearchFor oemSize st))) /\
  (forall e, In e (alts (runSearchFor oemSize st)) -> size e <> oemSize) /\
  (List.length (alts (runSearchFor oemSize st)) <= 8)%nat.
Proof.
  intros HP. unfold runSearchFor. rewrite HP.
  destruct (negb _); cbn [alts].
  - split; [constructor | split; [intros e [] | apply Nat.le_0_l]].
  - apply alternativesFor_sizes.
Qed.

Lemma returned_sizes_distinct_witness :
  NoDup (map size (alts (runSearch demoState))) /\
  (forall e, In e (alts (runSearch demoState)) -> size e <> OEM_TYRE) /\
  (List.length (alts (runSearch demoState)) <= 8)%nat.
Proof.
  apply (returned_sizes_distinct OEM_TYRE (mkTyre 265 30 20) demoState).
  vm_compute. reflexivity.
Defined.

(** X17. When the OEM size parses, the first entry of the returned list,
    the one the page marks as recommended, has the highest score of the
    list. *)
Theorem first_entry_scores_highest
    (oemSize : string) (parsedOEM : Tyre) (st : PageState)
    (first : Alt) (rest : list Alt) :
  parseTyreSize oemSize = Some parsedOEM ->
  alts (runSearchFor oemSize st) = first :: rest ->
  forall e, In e rest -> ge (alt_score first) (alt_score e) = true.
Proof.
  intros HP. unfold runSearchFor. rewrite HP.
  destruct (negb _); cbn [alts]; [discriminate |].
  intros E. assert (S := scoredFor_sorted oemSize parsedOEM).
  rewrite E in S. inversion S as [| ? ? _ F]; subst.
  rewrite Forall_forall in F. exact F.
Qed.

Lemma first_entry_scores_highest_witness :
  exists first rest,
    alts (runSearch demoState) = first :: rest /\
    forall e, In e rest -> ge (alt_score first) (alt_score e) = true.
Proof.
  assert (HP : parseTyreSize OEM_TYRE = Some (mkTyre 265 30 20))
    by (vm_compute; reflexivity).
  destruct (alts (runSearch demoState)) as [| first rest] eqn:E;
    [vm_compute in E; discriminate E |].
  exists first, rest. split; [reflexivity |].
  exact (first_entry_scores_highest OEM_TYRE (mkTyre 265 30 20) demoState
           first rest HP E).
Defined.

(** ** The page state *)

(** X20. Running the search twice is running it once: the second run
    leaves the state of the first. *)
Theorem runSearch_idempotent (oemSize : string) (st : PageState) :
  runSearchFor oemSize (runSearchFor oemSize st) = runSearchFor oemSize st.
Proof.
  destruct (negb (String.eqb (toUpperCase (trim (vrm st))) DEMO_VRM)) eqn:B.
  - assert (E : runSearchFor oemSize st =
                {| vrm := vrm st;
                   error := "DEMO ONLY: try " ++ quote ++ DEMO_VRM ++ quote;
                   oem := None; alts := [] |})
      by (unfold runSearchFor; rewrite B; reflexivity).
    rewrite E. unfold runSearchFor. cbn [vrm]. rewrite B. reflexivity.
  - destruct (parseTyreSize oemSize) as [p |] eqn:P.
    + assert (E : runSearchFor oemSize st =
                  {| vrm := vrm st; error := "";
                     oem := Some {| oem_vrm := toUpperCase (trim (vrm st));
                                    oem_tyre := oemSize |};
                     alts := alternativesFor oemSize p |})
        by (unfold runSearchFor; rewrite B, P; reflexivity).
      rewrite E. unfold runSearchFor. cbn [vrm]. rewrite B, P. reflexivity.
    + assert (E : runSearchFor oemSize st =
                  {| vrm := vrm st;
                     error := "OEM tyre size invalid in demo.";
                     oem := oem st; alts := alts st |})
        by (unfold runSearchFor; rewrite B, P; reflexivity).
      rewrite E. unfold runSearchFor. cbn [vrm oem alts]. rewrite B, P.
      reflexivity.
Qed.

(** X21.  What [runSearch] leaves on the page, whatever the other
    fields of the state before, for a registration of ASCII characters.
    A registration other than the demo one, up to case and surrounding
    white space, leaves the demo error, no OEM size and no
    alternatives.  The demo registration leaves no error, the OEM size
    265/30 R20 and two alternatives, 255/30 R20 and then 275/30 R20,
    both of score 74. *)
Theorem runSearch_outcome (st : PageState) :
  isAscii (vrm st) = true ->
  runSearch st =
  if String.eqb (toUpperCase (trim (vrm st))) "Y14 DRT" then
    {| vrm := vrm st; error := "";
       oem := Some {| oem_vrm := "Y14 DRT"; oem_tyre := "265/30 R20" |};
       alts :=
         [ {| size := "255/30 R20"; alt_score := ofZ 74;
              alt_reasons := ["Diameter Δ 0.90%"; "Width Δ 10mm"; "Aspect Δ 0"];
              links :=
                {| blackcircles :=
                     Some "https://www.blackcircles.com/tyres/255-30-20";
                   national :=
                     Some "https://www.national.co.uk/tyres-search/255-30-20"
                |} |};
           {| size := "275/30 R20"; alt_score := ofZ 74;
              alt_reasons := ["Diameter Δ 0.90%"; "Width Δ 10mm"; "Aspect Δ 0"];
              links :=
                {| blackcircles :=
                     Some "https://www.blackcircles.com/tyres/275-30-20";
                   national :=
                     Some "https://www.national.co.uk/tyres-search/275-30-20"
                |} |} ] |}
  else
    {| vrm := vrm st;
       error := "DEMO ONLY: try " ++ quote ++ "Y14 DRT" ++ quote;
       oem := None; alts := [] |}.
Proof.
  intros _.
  unfold runSearch, runSearchFor. change DEMO_VRM with "Y14 DRT".
  destruct (String.eqb (toUpperCase (trim (vrm st))) "Y14 DRT") eqn:E;
    cbn [negb]; [| reflexivity].
  apply String.eqb_eq in E. rewrite E.
  assert (HP : parseTyreSize OEM_TYRE = Some (mkTyre 265 30 20))
    by (vm_compute; reflexivity).
  rewrite HP. vm_compute. reflexivity.
Qed.

Lemma runSearch_outcome_witness :
  map size
    (alts (runSearch {| vrm := "  y14 drt "; error := "";
                        oem := None; alts := [] |}))
    = ["255/30 R20"; "275/30 R20"] /\
  error (runSearch {| vrm := "Y14DRT"; error := "";
                      oem := None; alts := [] |})
    = "DEMO ONLY: try " ++ quote ++ "Y14 DRT" ++ quote.
Proof.
  split.
  - rewrite (runSearch_outcome {| vrm := "  y14 drt "; error := "";
                                   oem := None; alts := [] |});
      vm_compute; reflexivity.
  - rewrite (runSearch_outcome {| vrm := "Y14DRT"; error := "";
                                   oem := None; alts := [] |});
      vm_compute; reflexivity.
Defined.

(** ** Nothing is lost before scoring *)

Lemma filterSeen_complete (xs : list Sized) (seen : list string) (x : Sized) :
  In x xs -> ~ In (sz_size x) seen ->
  exists y, In y (filterSeen seen xs) /\ sz_size y = sz_size x.
Proof.
  revert seen. induction xs as [| z xs IH]; intros seen; [intros [] |].
  intros Hx Hs. cbn [filterSeen].
  destruct (existsb (String.eqb (sz_size z)) seen) eqn:E.
  - destruct Hx as [-> | Hx]; [| apply IH; assumption].
    apply existsb_eqb_In in E. contradiction.
  - destruct (String.eqb (sz_size z) (sz_size x)) eqn:Q.
    + apply String.eqb_eq in Q. exists z. split; [left; reflexivity | exact Q].
    + apply String.eqb_neq in Q. destruct Hx as [-> | Hx]; [congruence |].
      destruct (IH (sz_size z :: seen) Hx) as (y & Hy & Ey).
      * intros [K | K]; [congruence | contradiction].
      * exists y. split; [right; exact Hy | exact Ey].
Qed.

(** X15. Every generated candidate whose formatted size is not the OEM
    size string is scored once: one scored entry has its size, and no
    two have the same size. *)
Theorem every_candidate_size_scored
    (oemSize : string) (parsedOEM t : Tyre) :
  In t (candidates parsedOEM) -> formatTyreSize t <> oemSize ->
  (exists x, In x (scoredCandidates oemSize parsedOEM) /\
             sc_size x = formatTyreSize t) /\
  NoDup (map sc_size (scoredCandidates oemSize parsedOEM)).
Proof.
  intros Ht Hne. unfold scoredCandidates. split.
  - set (sz := {| sz_t := t; sz_size := formatTyreSize t |}).
    assert (Hin : In sz (filter (fun x => negb (String.eqb (sz_size x) oemSize))
                           (map (fun t => {| sz_t := t;
                                             sz_size := formatTyreSize t |})
                              (candidates parsedOEM)))).
    { apply filter_In. split.
      - apply in_map_iff. exists t. split; [reflexivity | exact Ht].
      - apply negb_true_iff, String.eqb_neq. exact Hne. }
    destruct (filterSeen_complete _ [] sz Hin) as (y & Hy & Ey);
      [intros [] |].
    exists (scoreSized parsedOEM y). split.
    + apply in_map_iff. exists y. split; [reflexivity | exact Hy].
    + exact Ey.
  - rewrite map_map.
    change (fun x => sc_size (scoreSized parsedOEM x)) with sz_size.
    apply filterSeen_fresh.
Qed.

Lemma every_candidate_size_scored_witness :
  (exists x, In x (scoredCandidates OEM_TYRE (mkTyre 265 30 20)) /\
             sc_size x = formatTyreSize (mkTyre 265 25 20)) /\
  NoDup (map sc_size (scoredCandidates OEM_TYRE (mkTyre 265 30 20))).
Proof.
  apply every_candidate_size_scored.
  - rewrite candidates_mk by lia. cbn [In]. do 4 right. left. reflexivity.
  - vm_compute. discriminate.
Defined.

(** ** Normalising the input *)

Lemma upper_facts (c : ascii) :
  upper (upper c) = upper c /\
  isWhiteSpace (upper c) = isWhiteSpace c /\
  Ascii.eqb (upper c) " " = Ascii.eqb c " " /\
  (Ascii.eqb c " " = true -> isWhiteSpace c = true).
Proof.
  destruct c as [[] [] [] [] [] [] [] []]; vm_compute;
    repeat split; intros; (reflexivity || discriminate).
Qed.

Lemma isEmpty_trimEnd (s : string) :
  isEmpty (trimEnd s) = allChars isWhiteSpace s.
Proof.
  induction s as [| c s IH]; [reflexivity |].
  cbn [trimEnd allChars]. rewrite <- IH.
  destruct (isWhiteSpace c), (isEmpty (trimEnd s)); reflexivity.
Qed.

Lemma trimStart_upper (s : string) :
  trimStart (toUpperCase s) = toUpperCase (trimStart s).
Proof.
  induction s as [| c s IH]; [reflexivity |].
  cbn [toUpperCase trimStart].
  destruct (upper_facts c) as (_ & -> & _).
  destruct (isWhiteSpace c); [exact IH | reflexivity].
Qed.

Lemma allWs_upper (s : string) :
  allChars isWhiteSpace (toUpperCase s) = allChars isWhiteSpace s.
Proof.
  induction s as [| c s IH]; [reflexivity |].
  cbn [toUpperCase allChars]. rewrite IH.
  destruct (upper_facts c) as (_ & -> & _). reflexivity.
Qed.

Lemma trimEnd_upper (s : string) :
  trimEnd (toUpperCase s) = toUpperCase (trimEnd s).
Proof.
  induction s as [| c s IH]; [reflexivity |].
  cbn [toUpperCase trimEnd].
  rewrite !isEmpty_trimEnd, allWs_upper, IH.
  destruct (upper_facts c) as (_ & -> & _).
  destruct (isWhiteSpace c && allChars isWhiteSpace s); reflexivity.
Qed.

Lemma trimStart_spaces (s : string) :
  trimStart (replaceAll " " "" s) = replaceAll " " "" (trimStart s).
Proof.
  induction s as [| c s IH]; [reflexivity |].
  cbn [replaceAll trimStart].
  destruct (Ascii.eqb c " ") eqn:E.
  - destruct (upper_facts c) as (_ & _ & _ & W). rewrite (W E). exact IH.
  - cbn [trimStart]. destruct (isWhiteSpace c); [exact IH |].
    cbn [replaceAll]. rewrite E. reflexivity.
Qed.

Lemma allWs_spaces (s : string) :
  allChars isWhiteSpace (replaceAll " " "" s) = allChars isWhiteSpace s.
Proof.
  induction s as [| c s IH]; [reflexivity |].
  cbn [replaceAll allChars]. destruct (Ascii.eqb c " ") eqn:E.
  - destruct (upper_facts c) as (_ & _ & _ & W). rewrite (W E). exact IH.
  - cbn [allChars]. rewrite IH. reflexivity.
Qed.

Lemma trimEnd_spaces (s : string) :
  trimEnd (replaceAll " " "" s) = replaceAll " " "" (trimEnd s).
Proof.
  induction s as [| c s IH]; [reflexivity |].
  cbn [replaceAll trimEnd]. destruct (Ascii.eqb c " ") eqn:E.
  - destruct (upper_facts c) as (_ & _ & _ & W). rewrite (W E).
    cbn [andb append]. rewrite IH.
    destruct (isEmpty (trimEnd s)) eqn:B.
    + destruct (trimEnd s); [reflexivity | discriminate B].
    + cbn [replaceAll]. rewrite E. reflexivity.
  - cbn [trimEnd]. rewrite !isEmpty_trimEnd, allWs_spaces, IH.
    destruct (isWhiteSpace c && allChars isWhiteSpace s); [reflexivity |].
    cbn [replaceAll]. rewrite E. reflexivity.
Qed.

Lemma trimEnd_idem (s : string) : trimEnd (trimEnd s) = trimEnd s.
Proof.
  induction s as [| c s IH]; [reflexivity |].
  cbn [trimEnd]. destruct (isWhiteSpace c && isEmpty (trimEnd s)) eqn:B;
    [reflexivity |].
  cbn [trimEnd]. rewrite IH, B. reflexivity.
Qed.

Lemma trim_idem (s : string) : trim (trim s) = trim s.
Proof.
  unfold trim.
  assert (H : forall y, trimStart y = y -> trimStart (trimEnd y) = trimEnd y).
  { intros [| c r]; [reflexivity |]. cbn [trimStart trimEnd].
    destruct (isWhiteSpace c) eqn:W.
    - intros E. exfalso.
      assert (L : forall u, (String.length (trimStart u) <= String.length u)%nat).
      { induction u as [| d u IHu]; [apply Nat.le_refl |].
        cbn [trimStart]. destruct (isWhiteSpace d); [| apply Nat.le_refl].
        cbn [String.length]. apply Nat.le_trans with (String.length u);
          [exact IHu | apply Nat.le_succ_diag_r]. }
      specialize (L r). rewrite E in L. cbn [String.length] in L. lia.
    - intros _. cbn [andb trimStart]. rewrite W. reflexivity. }
  assert (F : forall u, trimStart (trimStart u) = trimStart u).
  { induction u as [| d u IHu]; [reflexivity |].
    cbn [trimStart]. destruct (isWhiteSpace d) eqn:W; [exact IHu |].
    cbn [trimStart]. rewrite W. reflexivity. }
  rewrite (H _ (F s)). apply trimEnd_idem.
Qed.

Lemma trim_upper (s : string) : trim (toUpperCase s) = toUpperCase (trim s).
Proof. unfold trim. rewrite trimStart_upper, trimEnd_upper. reflexivity. Qed.

Lemma trim_spaces (s : string) :
  trim (replaceAll " " "" s) = replaceAll " " "" (trim s).
Proof. unfold trim. rewrite trimStart_spaces, trimEnd_spaces. reflexivity. Qed.

Lemma upper_spaces (s : string) :
  toUpperCase (replaceAll " " "" s) = replaceAll " " "" (toUpperCase s).
Proof.
  induction s as [| c s IH]; [reflexivity |].
  cbn [replaceAll toUpperCase].
  destruct (upper_facts c) as (_ & _ & -> & _).
  destruct (Ascii.eqb c " "); [exact IH |].
  cbn [toUpperCase]. rewrite IH. reflexivity.
Qed.

Lemma upper_idem (s : string) : toUpperCase (toUpperCase s) = toUpperCase s.
Proof.
  induction s as [| c s IH]; [reflexivity |].
  cbn [toUpperCase]. rewrite IH.
  destruct (upper_facts c) as (-> & _). reflexivity.
Qed.

Lemma spaces_idem (s : string) :
  replaceAll " " "" (replaceAll " " "" s) = replaceAll " " "" s.
Proof.
  induction s as [| c s IH]; [reflexivity |].
  cbn [replaceAll]. destruct (Ascii.eqb c " ") eqn:E; [exact IH |].
  cbn [replaceAll]. rewrite E, IH. reflexivity.
Qed.

Lemma normalise_shapes (s : string) :
  normalise (normalise s) = normalise s /\
  normalise (trim s) = normalise s /\
  normalise (toUpperCase s) = normalise s /\
  normalise (replaceAll " " "" s) = normalise s.
Proof.
  unfold normalise. repeat split.
  - rewrite trim_spaces, trim_upper, trim_idem, upper_spaces, upper_idem,
      spaces_idem. reflexivity.
  - rewrite trim_idem. reflexivity.
  - rewrite trim_upper, upper_idem. reflexivity.
  - rewrite trim_spaces, upper_spaces, spaces_idem. reflexivity.
Qed.

Lemma upper_ascii (c : ascii) :
  isAsciiChar c = true -> isAsciiChar (upper c) = true.
Proof.
  destruct c as [[] [] [] [] [] [] [] []]; vm_compute; intros H;
    (reflexivity || discriminate H).
Qed.

Lemma trimStart_ascii (s : string) :
  isAscii s = true -> isAscii (trimStart s) = true.
Proof.
  unfold isAscii. induction s as [| c s IH]; [reflexivity |].
  intros H. cbn [trimStart]. destruct (isWhiteSpace c); [| exact H].
  cbn [allChars] in H. apply andb_prop in H. apply IH, H.
Qed.

Lemma trimEnd_ascii (s : string) :
  isAscii s = true -> isAscii (trimEnd s) = true.
Proof.
  unfold isAscii. induction s as [| c s IH]; [reflexivity |].
  intros H. cbn [allChars] in H. apply andb_prop in H. destruct H as [Hc Hs].
  cbn [trimEnd]. destruct (isWhiteSpace c && isEmpty (trimEnd s));
    [reflexivity |].
  cbn [allChars]. rewrite Hc, (IH Hs). reflexivity.
Qed.

Lemma toUpperCase_ascii (s : string) :
  isAscii s = true -> isAscii (toUpperCase s) = true.
Proof.
  unfold isAscii. induction s as [| c s IH]; [reflexivity |].
  intros H. cbn [allChars] in H. apply andb_prop in H. destruct H as [Hc Hs].
  cbn [toUpperCase allChars]. rewrite (upper_ascii c Hc), (IH Hs).
  reflexivity.
Qed.

Lemma remove_spaces_ascii (s : string) :
  isAscii s = true -> isAscii (replaceAll " " "" s) = true.
Proof.
  unfold isAscii. induction s as [| c s IH]; [reflexivity |].
  intros H. cbn [allChars] in H. apply andb_prop in H. destruct H as [Hc Hs].
  cbn [replaceAll]. destruct (Ascii.eqb c " "); [exact (IH Hs) |].
  cbn [allChars]. rewrite Hc, (IH Hs). reflexivity.
Qed.

Lemma trim_ascii (s : string) : isAscii s = true -> isAscii (trim s) = true.
Proof. intros H. apply trimEnd_ascii, trimStart_ascii, H. Qed.

Lemma normalise_ascii (s : string) :
  isAscii s = true -> isAscii (normalise s) = true.
Proof.
  intros H. apply remove_spaces_ascii, toUpperCase_ascii, trim_ascii, H.
Qed.

(** X1.  On a string of ASCII characters [normalise] gives a string of
    ASCII characters and is idempotent, and a parse does not see
    surrounding white space, letter case or spaces: the normalised, the
    trimmed and the upper-cased input and the input without its spaces
    all parse as the input does. *)
Theorem parse_ignores_case_and_spaces (s : string) :
  isAscii s = true ->
  isAscii (normalise s) = true /\
  normalise (normalise s) = normalise s /\
  parseTyreSize (normalise s) = parseTyreSize s /\
  parseTyreSize (trim s) = parseTyreSize s /\
  parseTyreSize (toUpperCase s) = parseTyreSize s /\
  parseTyreSize (replaceAll " " "" s) = parseTyreSize s.
Proof.
  intros A. split; [exact (normalise_ascii s A) |].
  destruct (normalise_shapes s) as (N1 & N2 & N3 & N4).
  unfold parseTyreSize. rewrite N1, N2, N3, N4. repeat split.
Qed.

Lemma parse_ignores_case_and_spaces_witness :
  normalise "  265 / 30 r 20 " = "265/30R20" /\
  parseTyreSize "  265 / 30 r 20 " = Some (mkTyre 265 30 20) /\
  parseTyreSize (trim "  265 / 30 r 20 ") = Some (mkTyre 265 30 20) /\
  parseTyreSize (toUpperCase "  265 / 30 r 20 ") = Some (mkTyre 265 30 20) /\
  parseTyreSize (replaceAll " " "" "  265 / 30 r 20 ")
    = Some (mkTyre 265 30 20).
Proof.
  assert (P : parseTyreSize "  265 / 30 r 20 " = Some (mkTyre 265 30 20))
    by (vm_compute; reflexivity).
  destruct (parse_ignores_case_and_spaces "  265 / 30 r 20 ")
    as (_ & _ & _ & T & U & R); [vm_compute; reflexivity |].
  split; [vm_compute; reflexivity |].
  split; [exact P |].
  split; [rewrite T; exact P |].
  split; [rewrite U; exact P | rewrite R; exact P].
Defined.

(** ** The shape of a string that parses *)

Lemma split_not_nil (c : ascii) (s : string) : split c s <> [].
Proof.
  destruct s as [| d s]; cbn [split]; [discriminate |].
  destruct (Ascii.eqb d c); [discriminate |].
  destruct (split c s); discriminate.
Qed.

Lemma split_one (c : ascii) (s b : string) :
  split c s = [b] ->
  s = b /\ allChars (fun d => negb (Ascii.eqb d c)) b = true.
Proof.
  revert b. induction s as [| d s IH]; intros b; cbn [split].
  - intros E. injection E as <-. split; reflexivity.
  - destruct (Ascii.eqb d c) eqn:D.
    + intros E. injection E as _ E. destruct (split_not_nil c s E).
    + destruct (split c s) as [| p ps] eqn:S; intros E.
      * destruct (split_not_nil c s S).
      * injection E as <- ->. destruct (IH p eq_refl) as [-> A].
        split; [reflexivity |]. cbn [allChars]. rewrite D, A. reflexivity.
Qed.

Lemma split_two (c : ascii) (s a b : string) :
  split c s = [a; b] ->
  s = a ++ String c b /\
  allChars (fun d => negb (Ascii.eqb d c)) a = true /\
  allChars (fun d => negb (Ascii.eqb d c)) b = true.
Proof.
  revert a. induction s as [| d s IH]; intros a; cbn [split].
  - discriminate.
  - destruct (Ascii.eqb d c) eqn:D.
    + intros E. injection E as <- E. destruct (split_one c s b E) as [-> A].
      apply Ascii.eqb_eq in D. subst d. repeat split. exact A.
    + destruct (split c s) as [| p ps] eqn:S; intros E; [discriminate E |].
      injection E as <- ->. destruct (IH p eq_refl) as (-> & A & B).
      repeat split; [| exact B]. cbn [allChars]. rewrite D, A. reflexivity.
Qed.

(** X2. A string parses only if its normalised form is a width, a slash,
    an aspect, the letter R and a rim, with no other R in it and no
    other slash before the R; the fields of the size are the numbers
    the three pieces read as. *)
Theorem parse_shape (input : string) (t : Tyre) :
  parseTyreSize input = Some t ->
  exists w a r : string,
    normalise input = w ++ "/" ++ a ++ "R" ++ r /\
    allChars (fun d => negb (Ascii.eqb d "R")) (w ++ a ++ r) = true /\
    allChars (fun d => negb (Ascii.eqb d "/")) (w ++ a) = true /\
    t = {| widthMm := toNumber w; aspect := toNumber a;
           rimIn := toNumber r |}.
Proof.
  intros H. apply parse_inv in H.
  destruct H as (l & w & a & r & S1 & S2 & E & _).
  apply split_two in S1. destruct S1 as (N & Rl & Rr).
  apply split_two in S2. destruct S2 as (-> & Sw & Sa).
  exists w, a, r. rewrite N.
  rewrite allChars_app in Rl. cbn [allChars] in Rl.
  apply andb_true_iff in Rl. destruct Rl as [Rw Ra].
  apply andb_true_iff in Ra. destruct Ra as [_ Ra].
  split; [| split; [| split]].
  - rewrite append_assoc. reflexivity.
  - rewrite !allChars_app, Rw, Ra, Rr. reflexivity.
  - rewrite allChars_app, Sw, Sa. reflexivity.
  - exact E.
Qed.

Lemma parse_shape_witness :
  exists w a r : string,
    normalise " 265/30 r20" = w ++ "/" ++ a ++ "R" ++ r /\
    allChars (fun d => negb (Ascii.eqb d "R")) (w ++ a ++ r) = true /\
    allChars (fun d => negb (Ascii.eqb d "/")) (w ++ a) = true /\
    mkTyre 265 30 20 = {| widthMm := toNumber w; aspect := toNumber a;
                          rimIn := toNumber r |}.
Proof.
  apply (parse_shape " 265/30 r20" (mkTyre 265 30 20)).
  vm_compute. reflexivity.
Defined.

(** ** Labels *)

Lemma le_ofZ_b (a b : Z) : le (ofZ a) (ofZ b) = (a <=? b)%Z.
Proof.
  destruct (a <=? b)%Z eqn:E.
  - apply le_ofZ, Z.leb_le, E.
  - destruct (le (ofZ a) (ofZ b)) eqn:L; [| reflexivity].
    apply le_ofZ in L. apply Z.leb_gt in E. lia.
Qed.

(** X19. When the OEM size parses, every returned entry has an integer
    score from 65 to 100, and its label follows the thresholds 90, 80
    and 70: an entry of score 65 to 69 is returned under the label
    Nope. *)
Theorem label_of_returned
    (oemSize : string) (parsedOEM : Tyre) (st : PageState) (e : Alt) :
  parseTyreSize oemSize = Some parsedOEM ->
  In e (alts (runSearchFor oemSize st)) ->
  exists k : Z,
    (65 <= k <= 100)%Z /\ alt_score e = ofZ k /\
    text (scoreLabel (alt_score e)) =
      if (90 <=? k)%Z then "S-Tier Fit"
      else if (80 <=? k)%Z then "Great Fit"
      else if (70 <=? k)%Z then "OK Fit" else "Nope".
Proof.
  intros HP. unfold runSearchFor. rewrite HP.
  destruct (negb _); cbn [alts]; [intros [] |].
  unfold alternativesFor. intros H.
  apply in_map_iff in H. destruct H as (x & <- & H).
  apply scoredFor_In in H. destruct H as [Hin Hs].
  destruct (shown_inv _ _ _ Hin Hs) as (_ & _ & k & Hk & E).
  exists k. cbn [dropSafe alt_score]. rewrite E.
  split; [exact Hk |]. split; [reflexivity |].
  unfold scoreLabel, ge. rewrite !le_ofZ_b.
  destruct (90 <=? k)%Z; [reflexivity |].
  destruct (80 <=? k)%Z; [reflexivity |].
  destruct (70 <=? k)%Z; reflexivity.
Qed.

Lemma label_of_returned_witness :
  map (fun e => (size e, alt_score e, text (scoreLabel (alt_score e))))
      (alts (runSearchFor "245/40 R18" demoState))
    = [("235/40 R18", ofZ 68, "Nope"); ("255/40 R18", ofZ 68, "Nope")] /\
  exists k : Z,
    (65 <= k <= 100)%Z /\ ofZ 68 = ofZ k /\
    text (scoreLabel (ofZ 68)) =
      if (90 <=? k)%Z then "S-Tier Fit"
      else if (80 <=? k)%Z then "Great Fit"
      else if (70 <=? k)%Z then "OK Fit" else "Nope".
Proof.
  split; [vm_compute; reflexivity |].
  assert (HP : parseTyreSize "245/40 R18" = Some (mkTyre 245 40 18))
    by (vm_compute; reflexivity).
  assert (HI : In (dropSafe (scoreSized (mkTyre 245 40 18)
                     {| sz_t := mkTyre 235 40 18; sz_size := "235/40 R18" |}))
                  (alts (runSearchFor "245/40 R18" demoState)))
    by (vm_compute; left; reflexivity).
  assert (E : alt_score (dropSafe (scoreSized (mkTyre 245 40 18)
                {| sz_t := mkTyre 235 40 18; sz_size := "235/40 R18" |}))
              = ofZ 68) by (vm_compute; reflexivity).
  rewrite <- E.
  exact (label_of_returned "245/40 R18" (mkTyre 245 40 18) demoState _ HP HI).
Defined.
